(** * datalad.metadata.metadata: argument normalisation and tag merging

    A shallow embedding of [src/datalad/metadata/metadata.py]:
    [_get_key], [_parse_argspec] and the part of [Metadata.__call__] that
    shapes the four setter arguments, merges tag specifications and
    dispatches to the annex repository.

    Python values are a closed inductive type: None, bool, int, str,
    bytes, list, tuple and dict. A [str] is modelled by the string of its
    bytes ([String.string]) and [str.lower] by ASCII lower-casing, which is
    what the code does on ASCII text; [bytes.lower] is ASCII lower-casing
    in the source too.
    Python dictionaries built by the code are [gmap string pyval]; a
    dictionary received as an argument is the list of its items in
    iteration order. Exceptions are an explicit error type threaded by a
    small error monad. *)

From Stdlib Require Import ZArith Ascii String List.
From stdpp Require Import base option list strings gmap fin_maps sorting.

Set Warnings "-register-all".

(** ** Python values *)

Inductive pyval : Type :=
| PyNone
| PyBool (b : bool)
| PyInt (n : Z)
| PyStr (s : string)
| PyList (xs : list pyval)
| PyTuple (xs : list pyval)
| PyDict (items : list (pyval * pyval))
| PyBytes (b : string).

(** Python truth value testing ([if v:], [not v]). *)
Definition truthy (v : pyval) : bool :=
  match v with
  | PyNone => false
  | PyBool b => b
  | PyInt n => negb (Z.eqb n 0)
  | PyStr s => negb (String.eqb s "")
  | PyList xs => negb (Nat.eqb (length xs) 0)
  | PyTuple xs => negb (Nat.eqb (length xs) 0)
  | PyDict items => negb (Nat.eqb (length items) 0)
  | PyBytes b => negb (String.eqb b "")
  end.

(** [isinstance(v, dict)], [isinstance(v, list)], [isinstance(v, tuple)]. *)
Definition is_dict (v : pyval) : bool :=
  match v with PyDict _ => true | _ => false end.
Definition is_list (v : pyval) : bool :=
  match v with PyList _ => true | _ => false end.
Definition is_tuple (v : pyval) : bool :=
  match v with PyTuple _ => true | _ => false end.

(** ** Exceptions and the error monad *)

Inductive exn : Type :=
| ValueError (msg : string)
| TypeError
| AttributeError.

Inductive result (A : Type) : Type :=
| Ok (a : A)
| Raise (e : exn).
Arguments Ok {A} a.
Arguments Raise {A} e.

(** The instances give the error monad stdpp's [x ← r; k] notation. *)
#[global] Instance result_ret : MRet result := fun A a => Ok a.
#[global] Instance result_bind : MBind result := fun A B f r =>
  match r with
  | Ok a => f a
  | Raise e => Raise e
  end.

#[global] Instance result_fmap : FMap result := fun A B f r =>
  match r with
  | Ok a => Ok (f a)
  | Raise e => Raise e
  end.

(** A Python [for] loop whose body may raise: the state is threaded through
    the items in order and the first exception ends the loop. *)
Fixpoint for_each {S A} (body : A -> S -> result S) (xs : list A) (st : S)
  : result S :=
  match xs with
  | [] => Ok st
  | x :: rest => st' ← body x st; for_each body rest st'
  end.

(** ** Strings *)

Definition dquote : string := String "034"%char EmptyString.
Definition newline : string := String "010"%char EmptyString.

(** [c.lower()] on one byte: [A-Z] to [a-z], everything else unchanged.
    This is [bytes.lower], and [str.lower] on ASCII text. A [str] with
    characters outside ASCII, which Python lower-cases by the Unicode
    tables, is outside this model: the statements below about keys are
    statements about ASCII keys. *)
Definition lower_ascii (c : ascii) : ascii :=
  let n := nat_of_ascii c in
  if (Nat.leb 65 n && Nat.leb n 90)%bool then ascii_of_nat (n + 32) else c.

Fixpoint lower (s : string) : string :=
  match s with
  | EmptyString => EmptyString
  | String c rest => String (lower_ascii c) (lower rest)
  end.

(** ** [valid_key = re.compile(r'^[0-9a-z._-]+$')] *)

Definition valid_key_pattern : string := "^[0-9a-z._-]+$".

(** The character class [[0-9a-z._-]]. *)
Definition in_class (c : ascii) : bool :=
  let n := nat_of_ascii c in
  ((Nat.leb 48 n && Nat.leb n 57)      (* 0-9 *)
   || (Nat.leb 97 n && Nat.leb n 122)  (* a-z *)
   || Nat.eqb n 46                     (* .   *)
   || Nat.eqb n 95                     (* _   *)
   || Nat.eqb n 45)%bool.              (* -   *)

(** [$] outside MULTILINE mode: at the end of the string, or just before a
    newline that is the last character of the string. *)
Definition at_dollar (s : string) : bool :=
  match s with
  | EmptyString => true
  | String c EmptyString => Ascii.eqb c "010"%char
  | String _ (String _ _) => false
  end.

(** [[0-9a-z._-]*$] from the current position. The class excludes the
    newline, so the greedy run of class characters is the only candidate. *)
Fixpoint class_star_dollar (s : string) : bool :=
  match s with
  | EmptyString => true
  | String c rest => if in_class c then class_star_dollar rest else at_dollar s
  end.

(** [valid_key.match(s)] as a truth value. *)
Definition valid_key_match (s : string) : bool :=
  match s with
  | EmptyString => false
  | String c rest => (in_class c && class_star_dollar rest)%bool
  end.

(** ** [_get_key] *)

(** [k.lower()]: [str] and [bytes] have the method, the other values
    raise [AttributeError]. *)
Definition py_lower (k : pyval) : result pyval :=
  match k with
  | PyStr s => Ok (PyStr (lower s))
  | PyBytes b => Ok (PyBytes (lower b))
  | _ => Raise AttributeError
  end.

Definition invalid_key_msg (k : string) : string :=
  "invalid metadata key " +:+ dquote +:+ k +:+ dquote
    +:+ ", must match pattern " +:+ valid_key_pattern.

(** [valid_key] is a [str] pattern: matching it against [bytes] raises
    [TypeError]. *)
Definition _get_key (k : pyval) : result string :=
  k ← py_lower k;
  match k with
  | PyStr k =>
      if negb (valid_key_match k)
      then Raise (ValueError (invalid_key_msg k))
      else Ok k
  | _ => Raise TypeError
  end.

(** ** [_parse_argspec] *)

Definition not_dict_or_sequence_msg : string :=
  "invalid metadata specification, must be a dict or sequence".
Definition something_weird_msg : string :=
  "invalid metadata specification, something weird".

(** What the [for] statement iterates over: [args.items()] for a dict (each
    item a 2-tuple), the elements themselves for a list or a tuple. *)
Definition iter_args (args : pyval) : list pyval :=
  match args with
  | PyDict items => map (fun kv => PyTuple [fst kv; snd kv]) items
  | PyList xs => xs
  | PyTuple xs => xs
  | _ => []
  end.

(** [k, v = k]. The items of a dict are 2-tuples, so the unpacking at
    line 64 never raises. *)
Definition unpack2 (k : pyval) : result (pyval * pyval) :=
  match k with
  | PyTuple [a; b] => Ok (a, b)
  | PyList [a; b] => Ok (a, b)
  | PyTuple _ | PyList _ => Raise (ValueError "unpack")
  | _ => Raise TypeError
  end.

(** The loop state: the [tags] list and the [mapping] dict. *)
Definition parse_state : Type := list pyval * gmap string pyval.

(** The body of the loop at lines 60-79. *)
Definition parse_body (asdict : bool) (k : pyval) (st : parse_state)
  : result parse_state :=
  let '(tags, mapping) := st in
  if asdict then
    '(k, v) ← unpack2 k;
    if truthy v then
      key ← _get_key k;
      Ok (tags, <[key := v]> mapping)
    else
      Ok (tags ++ [k], mapping)
  else
    match k with
    | PyList elems =>
        match elems with
        | [] => Raise (ValueError something_weird_msg)
        | [k0] => Ok (tags ++ [k0], mapping)
        | k0 :: rest =>
            key ← _get_key k0;
            Ok (tags, <[key := PyList rest]> mapping)
        end
    | _ => Ok (tags ++ [k], mapping)
    end.

Definition _parse_argspec (args : pyval) : result parse_state :=
  let tags : list pyval := [] in
  let mapping : gmap string pyval := ∅ in
  if negb (truthy args) then Ok (tags, mapping)
  else if negb (is_dict args || is_list args || is_tuple args)
  then Raise (ValueError not_dict_or_sequence_msg)
  else
    let asdict := is_dict args in
    for_each (parse_body asdict) (iter_args args) (tags, mapping).

(** ** [Metadata.__call__]: shaping of the setter arguments (lines 190-203) *)

(** [d.get(key, default)] *)
Definition dict_get (d : gmap string pyval) (key : string) (default : pyval)
  : pyval :=
  match d !! key with
  | Some v => v
  | None => default
  end.

(** [a + b] on the modelled values: numbers add ([bool] is an [int]),
    strings, bytes, lists and tuples concatenate with their own kind, and
    every other pairing raises [TypeError]. *)
Definition as_int (v : pyval) : option Z :=
  match v with
  | PyInt n => Some n
  | PyBool b => Some (if b then 1 else 0)%Z
  | _ => None
  end.

Definition py_add (a b : pyval) : result pyval :=
  match a, b with
  | PyStr s, PyStr t => Ok (PyStr (s +:+ t))
  | PyList xs, PyList ys => Ok (PyList (xs ++ ys))
  | PyTuple xs, PyTuple ys => Ok (PyTuple (xs ++ ys))
  | PyBytes s, PyBytes t => Ok (PyBytes (s +:+ t))
  | _, _ =>
      match as_int a, as_int b with
      | Some m, Some n => Ok (PyInt (m + n))
      | _, _ => Raise TypeError
      end
  end.

(** One of the three merge blocks (lines 195-197, 198-200, 201-203):
    [all_tag = mapping.get('tag', []) + tags],
    [if all_tag: mapping['tag'] = all_tag]. *)
Definition merge_tags (tags : list pyval) (mapping : gmap string pyval)
  : result (gmap string pyval) :=
  all_tag ← py_add (dict_get mapping "tag" (PyList [])) (PyList tags);
  if truthy all_tag then Ok (<["tag" := all_tag]> mapping) else Ok mapping.

(** The values of the local variables after line 203 that are handed to
    [set_metadata]. *)
Record setter_args : Type := SetterArgs {
  sa_reset : gmap string pyval;
  sa_add : gmap string pyval;
  sa_init : gmap string pyval;
  sa_remove : gmap string pyval;
  sa_purge : list pyval
}.

Definition shape_setter_args (add init remove reset : pyval)
  : result setter_args :=
  '(untag, remove) ← _parse_argspec remove;
  '(purge, reset) ← _parse_argspec reset;
  '(tag_add, add) ← _parse_argspec add;
  '(tag_init, init) ← _parse_argspec init;
  remove ← merge_tags untag remove;
  add ← merge_tags tag_add add;
  init ← merge_tags tag_init init;
  Ok {| sa_reset := reset; sa_add := add; sa_init := init;
        sa_remove := remove; sa_purge := purge |}.

(** ** [Metadata.__call__]: dispatch to the repository (lines 246-299) *)

(** Truth value of a dict built by the code, and of a list. *)
Definition dict_truthy (d : gmap string pyval) : bool :=
  negb (Nat.eqb (size d) 0).
Definition list_truthy (l : list pyval) : bool :=
  negb (Nat.eqb (length l) 0).

(** The calls made on [ds.repo], in order. *)
Inductive store_call : Type :=
| SetMetadata (paths : list string) (args : setter_args)
| GetMetadata (paths : list string).

Definition is_set_call (c : store_call) : bool :=
  match c with SetMetadata _ _ => true | GetMetadata _ => false end.

(** One entry of [content_by_ds]: the dataset, whether its repository is an
    [AnnexRepo], and the paths of its (filtered) content. *)
Record dataset : Type := Dataset {
  ds_path : string;
  ds_is_annex : bool;
  ds_paths : list string
}.

(** How the generator ends: exhausted, or by the [KeyError] of a subscript
    on an answer of the repository ([mp['file']], [mp[0]]). *)
Inductive gen_end : Type :=
| Exhausted
| KeyErrorRaised.

Module Metadata.
Section Call.
(** The collaborators are outside this module: the repository's answers
    and the result records are left abstract. An answer [mp] of
    [set_metadata] is read three ways: [mp.get('success', False)],
    [mp['file']] and [mp[0]]; [None] stands for the [KeyError] of a
    subscript the answer does not have. *)
Context {mp meta res : Type}.
Variable mp_success : mp -> bool.
Variable mp_file : mp -> option string.
Variable mp_item0 : mp -> option string.
Variable set_metadata : list string -> setter_args -> list mp.
Variable get_metadata : list string -> list (string * meta).
(** the three kinds of records the generator yields *)
Variable impossible_results : dataset -> list res.
Variable error_result : dataset -> string -> res.
Variable ok_result : dataset -> string -> meta -> res.

(** Lines 292-299. *)
Definition query (ds : dataset) (paths : list string)
  : list store_call * list res :=
  ([GetMetadata paths],
   map (fun fm => ok_result ds (fst fm) (snd fm)) (get_metadata paths)).

(** Lines 277-285, the loop over the answers of [set_metadata]: the error
    records yielded, and [mod_paths] when the loop ends normally. A
    subscript that raises ends the loop, and the generator, after the
    records yielded so far. *)
Fixpoint handle_responses (ds : dataset) (mps : list mp)
    (mod_paths : list string) : list res * option (list string) :=
  match mps with
  | [] => ([], Some mod_paths)
  | m :: rest =>
      if mp_success m then
        match mp_file m with
        | Some file => handle_responses ds rest (mod_paths ++ [file])
        | None => ([], None)
        end
      else
        match mp_item0 m with
        | Some p =>
            let '(errors, r) := handle_responses ds rest mod_paths in
            (error_result ds p :: errors, r)
        | None => ([], None)
        end
  end.

(** The body of the loop over [content_by_ds], lines 247-299: the calls
    made on the repository, the records yielded, and how it ended. *)
Definition process_dataset (a : setter_args) (ds : dataset)
  : list store_call * list res * gen_end :=
  if negb (ds_is_annex ds) then ([], impossible_results ds, Exhausted)
  else
    let paths := ds_paths ds in
    if (dict_truthy (sa_reset a) || list_truthy (sa_purge a)
        || dict_truthy (sa_add a) || dict_truthy (sa_init a)
        || dict_truthy (sa_remove a))%bool
    then
      match handle_responses ds (set_metadata paths a) [] with
      | (errors, Some mod_paths) =>
          let '(calls, oks) := query ds mod_paths in
          (SetMetadata paths a :: calls, errors ++ oks, Exhausted)
      | (errors, None) => ([SetMetadata paths a], errors, KeyErrorRaised)
      end
    else
      let '(calls, oks) := query ds paths in (calls, oks, Exhausted).

Fixpoint process_datasets (a : setter_args) (dss : list dataset)
  : list store_call * list res * gen_end :=
  match dss with
  | [] => ([], [], Exhausted)
  | ds :: rest =>
      match process_dataset a ds with
      | (c1, r1, Exhausted) =>
          let '(c2, r2, e) := process_datasets a rest in
          (c1 ++ c2, r1 ++ r2, e)
      | (c1, r1, KeyErrorRaised) => (c1, r1, KeyErrorRaised)
      end
  end.

(** [__call__] from line 190 on, given the grouping of the annotated
    paths by dataset. *)
Definition __call__ (content_by_ds : list dataset)
    (add init remove reset : pyval)
  : result (list store_call * list res * gen_end) :=
  a ← shape_setter_args add init remove reset;
  Ok (process_datasets a content_by_ds).
End Call.
End Metadata.

(** ** [Metadata.__call__]: the annotated paths (lines 214-236) *)

(** [v == s] for a string literal [s]: only a [str] can be equal to it. *)
Definition py_eq_str (v : pyval) (s : string) : bool :=
  match v with
  | PyStr t => String.eqb t s
  | _ => false
  end.

(** The loop over the annotated paths. Each [ap] is a dict. The result is
    the list of the dicts yielded as they are, and [to_process]; [None]
    for [to_process] stands for the [KeyError] of [ap['path']], which ends
    the generator after the yields made so far. [is_valid_repo] is
    [GitRepo.is_valid_repo]. *)
Fixpoint collect_to_process (is_valid_repo : pyval → bool)
    (aps : list (gmap string pyval))
  : list (gmap string pyval) * option (list (gmap string pyval)) :=
  match aps with
  | [] => ([], Some [])
  | ap :: rest =>
      if truthy (dict_get ap "status" PyNone) then
        let '(yielded, to_process) := collect_to_process is_valid_repo rest in
        (ap :: yielded, to_process)
      else if py_eq_str (dict_get ap "type" PyNone) "dataset" then
        if py_eq_str (dict_get ap "state" PyNone) "absent" then
          collect_to_process is_valid_repo rest
        else
          match ap !! "path" with
          | None => ([], None)
          | Some path =>
              let ap' := if is_valid_repo path
                         then <["process_content" := PyBool true]> ap
                         else ap in
              let '(yielded, to_process) :=
                collect_to_process is_valid_repo rest in
              (yielded, cons ap' <$> to_process)
          end
      else
        let '(yielded, to_process) := collect_to_process is_valid_repo rest in
        (yielded, cons ap <$> to_process)
  end.

(** The three tests of the loop body, and the marking of a dataset. *)
Definition ap_done (ap : gmap string pyval) : bool :=
  truthy (dict_get ap "status" PyNone).
Definition ap_is_dataset (ap : gmap string pyval) : bool :=
  py_eq_str (dict_get ap "type" PyNone) "dataset".
Definition ap_absent_dataset (ap : gmap string pyval) : bool :=
  (ap_is_dataset ap && py_eq_str (dict_get ap "state" PyNone) "absent")%bool.
Definition ap_mark (is_valid_repo : pyval → bool) (ap : gmap string pyval)
  : gmap string pyval :=
  match ap !! "path" with
  | Some path =>
      if (ap_is_dataset ap && is_valid_repo path)%bool
      then <["process_content" := PyBool true]> ap else ap
  | None => ap
  end.

(** ** [Metadata.custom_result_renderer] (lines 301-316) *)

(** A result record, with the fields the renderer reads: [res['status']],
    [res.get('action')], [res['path']], [res.get('refds')] and
    [res.get('metadata')], a dict from key to list of values, given as
    the list of its items in the order of iteration. *)
Record result_record : Type := ResultRecord {
  res_status : string;
  res_action : option string;
  res_path : string;
  res_refds : option string;
  res_metadata : option (list (string * list string))
}.

(** The order of [str] values, and [sorted] on a list of them. *)
Definition str_le (s t : string) : Prop := String.leb s t = true.

#[global] Instance str_le_dec : RelDecision str_le :=
  fun s t => decide (String.leb s t = true).

Definition sorted (l : list string) : list string := merge_sort str_le l.

(** [meta.keys()], in the order of iteration, and [meta[key]] with
    [key in meta]. *)
Definition dict_keys (meta : list (string * list string)) : list string :=
  meta.*1.

Fixpoint items_get (key : string) (meta : list (string * list string))
  : option (list string) :=
  match meta with
  | [] => None
  | (k, v) :: rest => if String.eqb k key then Some v else items_get key rest
  end.

(** [[m for m in meta if m != 'tag']] and
    [(k for k in sorted(meta.keys()) if not k == 'tag')]. *)
Definition non_tag_keys (meta : list (string * list string)) : list string :=
  filter (λ m, m ≠ "tag") (dict_keys meta).
Definition listed_keys (meta : list (string * list string)) : list string :=
  filter (λ k, k ≠ "tag") (sorted (dict_keys meta)).

(** [path]: relative to [refds] when [res.get('refds')] is truthy. *)
Definition rendered_path (relpath : string → string → string)
    (res : result_record) : string :=
  match res_refds res with
  | Some refds =>
      if negb (String.eqb refds "") then relpath (res_path res) refds
      else res_path res
  | None => res_path res
  end.

(** The renderer: [None] when it returns without a message, [Some msg]
    when it calls [ui.message(msg)]. [relpath] is [os.path.relpath]. *)
Definition custom_result_renderer (relpath : string → string → string)
    (res : result_record) : option string :=
  if (negb (String.eqb (res_status res) "ok")
      || negb (bool_decide (res_action res = Some "metadata")))%bool
  then None
  else
    let path := rendered_path relpath res in
    let meta := default [] (res_metadata res) in
    Some (path +:+ ":"
          +:+ (if negb (Nat.eqb (length (non_tag_keys meta)) 0) then " " else "")
          +:+ String.concat "," (listed_keys meta)
          +:+ match items_get "tag" meta with
              | None => ""
              | Some tags => " [" +:+ String.concat "," tags +:+ "]"
              end).

(** ** Derived notions used in the statements *)

(** The canonical mapping of a reconciled class, from its raw argument
    alone. *)
Definition canonical_mapping (raw : pyval) : result (gmap string pyval) :=
  '(tags, mapping) ← _parse_argspec raw; merge_tags tags mapping.

(** Nothing for [set_metadata] to do: the four mappings and the purge list
    are all empty. *)
Definition nothing_to_set (a : setter_args) : Prop :=
  sa_reset a = ∅ ∧ sa_add a = ∅ ∧ sa_init a = ∅ ∧ sa_remove a = ∅
  ∧ sa_purge a = [].

(** What one entry of a list-form argument contributes to [tags]. *)
Definition entry_tags (e : pyval) : list pyval :=
  match e with
  | PyList [t] => [t]
  | PyList _ => []
  | _ => [e]
  end.

(** The entries of a list-form argument the loop body accepts: everything
    but the empty list and a longer list whose head [_get_key] rejects. *)
Definition entry_ok (e : pyval) : bool :=
  match e with
  | PyList [] => false
  | PyList [_] => true
  | PyList (k0 :: _) =>
      match _get_key k0 with Ok _ => true | Raise _ => false end
  | _ => true
  end.

(** What [_get_key] raises on a key that is not a [str]: [bytes] gets
    through [lower] and fails in the match, the other values have no
    [lower]. *)
Definition non_str_key_error (k : pyval) : option exn :=
  match k with
  | PyStr _ => None
  | PyBytes _ => Some TypeError
  | _ => Some AttributeError
  end.

(** Every key of a mapping is one [valid_key] matches, in lower case. *)
Definition keys_valid (mapping : gmap string pyval) : Prop :=
  ∀ k, is_Some (mapping !! k) → valid_key_match k = true ∧ lower k = k.

(** ** The specification's wording, for comparison with the code *)

(** "One or more characters from the set of digits, lowercase letters,
    [.], [_], [-]" (section 4.1). *)
Fixpoint all_in_class (s : string) : bool :=
  match s with
  | EmptyString => true
  | String c rest => (in_class c && all_in_class rest)%bool
  end.

Definition spec_key_pattern (s : string) : bool :=
  (negb (String.eqb s "") && all_in_class s)%bool.

(** "None or empty" (section 4.2). *)
Definition none_or_empty (v : pyval) : bool :=
  match v with
  | PyNone => true
  | PyStr s => String.eqb s ""
  | PyList xs | PyTuple xs => Nat.eqb (length xs) 0
  | PyDict items => Nat.eqb (length items) 0
  | PyBytes b => String.eqb b ""
  | _ => false
  end.

(** "Mapping" and "sequence" at the top-level dispatch (section 4.2). *)
Definition is_mapping (v : pyval) : bool := is_dict v.
Definition is_sequence (v : pyval) : bool := (is_list v || is_tuple v)%bool.

(** The tag reconciler of section 4.3 as a relation between the normalised
    pair and the final mapping: [existing] is the list under ["tag"] (or the
    empty list when the key is absent); [existing ++ tags] is stored under
    ["tag"] when it is non-empty, and nothing changes otherwise. *)
Definition reconciled (tags : list pyval) (mapping mapping' : gmap string pyval)
  : Prop :=
  ∃ existing : list pyval,
    (mapping !! "tag" = Some (PyList existing)
     ∨ (mapping !! "tag" = None ∧ existing = []))
    ∧ (existing ++ tags ≠ [] →
       mapping' = <["tag" := PyList (existing ++ tags)]> mapping)
    ∧ (existing ++ tags = [] → mapping' = mapping).

(** Every value stored in a mapping is truthy. *)
Definition all_truthy (mapping : gmap string pyval) : Prop :=
  ∀ k v, mapping !! k = Some v → truthy v = true.

(** * Properties *)

(** ** The error monad and the loop *)

Lemma bind_Ok {A B} (a : A) (f : A → result B) : (Ok a ≫= f) = f a.
Proof. reflexivity. Qed.

Lemma bind_Raise {A B} (e : exn) (f : A → result B) : (Raise e ≫= f) = Raise e.
Proof. reflexivity. Qed.

Lemma bind_Ok_inv {A B} (r : result A) (f : A → result B) (b : B) :
  (r ≫= f) = Ok b → ∃ a, r = Ok a ∧ f a = Ok b.
Proof. destruct r as [a|e]; simpl; [eauto | discriminate]. Qed.

Lemma for_each_app {S A} (body : A → S → result S) (xs ys : list A) (st : S) :
  for_each body (xs ++ ys) st = (st' ← for_each body xs st; for_each body ys st').
Proof.
  revert st. induction xs as [|x xs IH]; intros st; simpl; [reflexivity|].
  destruct (body x st) as [st'|e]; simpl; [apply IH | reflexivity].
Qed.

Lemma for_each_snoc {S A} (body : A → S → result S) (xs : list A) (x : A)
    (st st' : S) :
  for_each body xs st = Ok st' → for_each body (xs ++ [x]) st = body x st'.
Proof.
  intros H. rewrite for_each_app, H. simpl.
  destruct (body x st'); reflexivity.
Qed.

(** An invariant of the loop state that every successful step preserves
    holds when the loop ends normally. *)
Lemma for_each_invariant {S A} (P : S → Prop) (body : A → S → result S)
    (xs : list A) :
  (∀ x st st', P st → body x st = Ok st' → P st') →
  ∀ st st', P st → for_each body xs st = Ok st' → P st'.
Proof.
  intros Hstep. induction xs as [|x xs IH]; intros st st' HP Hrun; simpl in Hrun.
  - congruence.
  - apply bind_Ok_inv in Hrun as (st1 & H1 & H2). eauto.
Qed.

(** ** [_parse_argspec] is its loop *)

Lemma parse_list_loop (xs : list pyval) :
  _parse_argspec (PyList xs) = for_each (parse_body false) xs ([], ∅).
Proof. destruct xs; reflexivity. Qed.

Lemma parse_tuple_loop (xs : list pyval) :
  _parse_argspec (PyTuple xs) = for_each (parse_body false) xs ([], ∅).
Proof. destruct xs; reflexivity. Qed.

Lemma parse_dict_loop (items : list (pyval * pyval)) :
  _parse_argspec (PyDict items)
  = for_each (parse_body true) (iter_args (PyDict items)) ([], ∅).
Proof. destruct items; reflexivity. Qed.

Lemma parse_falsy (args : pyval) :
  truthy args = false → _parse_argspec args = Ok ([], ∅).
Proof. intros H. unfold _parse_argspec. rewrite H. reflexivity. Qed.

Lemma parse_not_container (args : pyval) :
  truthy args = true →
  (is_dict args || is_list args || is_tuple args)%bool = false →
  _parse_argspec args = Raise (ValueError not_dict_or_sequence_msg).
Proof. intros H1 H2. unfold _parse_argspec. rewrite H1, H2. reflexivity. Qed.

Lemma parse_body_shift (asdict : bool) (k : pyval) (tags0 : list pyval)
    (mapping0 : gmap string pyval) :
  parse_body asdict k (tags0, mapping0)
  = ('(tags, mapping) ← parse_body asdict k ([], ∅);
     Ok (tags0 ++ tags, mapping ∪ mapping0)).
Proof.
  assert (Hins : ∀ key v, <[key := v]> mapping0
                          = <[key := v]> (∅ : gmap string pyval) ∪ mapping0).
  { intros key v. by rewrite <- insert_union_l, (left_id_L ∅ (∪)). }
  assert (Htag : ∀ t, Ok (A:=parse_state) (tags0 ++ [t], mapping0)
                      = Ok (tags0 ++ [] ++ [t], ∅ ∪ mapping0)).
  { intros t. by rewrite (left_id_L ∅ (∪)). }
  unfold parse_body. destruct asdict.
  - destruct (unpack2 k) as [[k0 v]|e]; [|reflexivity]. rewrite !bind_Ok.
    destruct (truthy v); [|apply Htag].
    destruct (_get_key k0) as [key|e]; [|reflexivity].
    rewrite !bind_Ok. by rewrite Hins, app_nil_r.
  - destruct k as [| | | |elems| | |]; try apply Htag.
    destruct elems as [|k0 [|v1 vs]]; [reflexivity | apply Htag |].
    destruct (_get_key k0) as [key|e]; [|reflexivity].
    rewrite !bind_Ok. by rewrite Hins, app_nil_r.
Qed.

(** Running the loop from a later state is running it from the start and
    putting its tags after, and its keys over, what was there. *)
Lemma for_each_parse_shift (asdict : bool) (xs : list pyval)
    (tags0 : list pyval) (mapping0 : gmap string pyval) :
  for_each (parse_body asdict) xs (tags0, mapping0)
  = ('(tags, mapping) ← for_each (parse_body asdict) xs ([], ∅);
     Ok (tags0 ++ tags, mapping ∪ mapping0)).
Proof.
  revert tags0 mapping0. induction xs as [|x xs IH]; intros tags0 mapping0.
  - simpl. by rewrite app_nil_r, (left_id_L ∅ (∪)).
  - cbn [for_each]. rewrite (parse_body_shift asdict x tags0 mapping0).
    destruct (parse_body asdict x ([], ∅)) as [[t1 m1]|e]; [|reflexivity].
    rewrite !bind_Ok. rewrite (IH (tags0 ++ t1)), (IH t1).
    destruct (for_each (parse_body asdict) xs ([], ∅)) as [[t m]|e];
      [|reflexivity].
    rewrite !bind_Ok. by rewrite (assoc_L (++)), (assoc_L (∪)).
Qed.

Example parse_none : _parse_argspec PyNone = Ok ([], ∅).
Proof. reflexivity. Qed.

Example parse_dict_example :
  _parse_argspec (PyDict [(PyStr "color", PyStr ""); (PyStr "mood", PyStr "happy")])
  = Ok ([PyStr "color"], {[ "mood" := PyStr "happy" ]}).
Proof. vm_compute. reflexivity. Qed.

Example parse_list_example :
  _parse_argspec (PyList [PyList [PyStr "urgent"];
                          PyList [PyStr "color"; PyStr "red"; PyStr "blue"]])
  = Ok ([PyStr "urgent"], {[ "color" := PyList [PyStr "red"; PyStr "blue"] ]}).
Proof. vm_compute. reflexivity. Qed.

Example get_key_newline : _get_key (PyStr ("color" +:+ newline)) = Ok ("color" +:+ newline).
Proof. vm_compute. reflexivity. Qed.

(** ** C3: elements of a sequence-shaped argument *)

(** C3, as stated, at the empty tuple as an element of a list: it is a
    sequence of length 0, and normalisation does not fail on it; the tuple
    is appended to the tags, as every element that is not a list is. *)
Lemma empty_tuple_element_accepted :
  ¬ (∀ e : pyval,
       is_sequence e = true → length (iter_args e) = 0 →
       _parse_argspec (PyList [e]) = Raise (ValueError something_weird_msg)).
Proof.
  intros H. specialize (H (PyTuple []) eq_refl eq_refl). discriminate H.
Qed.

(** C3, amended. For a list or tuple argument each element [e] is
    classified by whether it is a list, wherever it stands: with
    [(tags, mapping)] the outcome on the elements before [e], a one-element
    list contributes its sole element to [tags]; a longer list stores its
    tail under the validated head, and fails as [_get_key] fails; the empty
    list raises "something weird"; anything that is not a list, a tuple
    included, is appended to [tags] as it is. The elements after [e] are
    then normalised on top of that: their tags follow, their keys take
    precedence. *)
Theorem parse_sequence_element (mk : list pyval → pyval)
    (prefix suffix : list pyval) (e : pyval)
    (tags : list pyval) (mapping : gmap string pyval) :
  mk = PyList ∨ mk = PyTuple →
  _parse_argspec (mk prefix) = Ok (tags, mapping) →
  (∀ t, e = PyList [t] →
        _parse_argspec (mk (prefix ++ e :: suffix))
        = ('(tags', mapping') ← _parse_argspec (mk suffix);
           Ok ((tags ++ [t]) ++ tags', mapping' ∪ mapping)))
  ∧ (∀ k0 v1 vs, e = PyList (k0 :: v1 :: vs) →
        _parse_argspec (mk (prefix ++ e :: suffix))
        = (key ← _get_key k0;
           '(tags', mapping') ← _parse_argspec (mk suffix);
           Ok (tags ++ tags',
               mapping' ∪ <[key := PyList (v1 :: vs)]> mapping)))
  ∧ (e = PyList [] →
        _parse_argspec (mk (prefix ++ e :: suffix))
        = Raise (ValueError something_weird_msg))
  ∧ (is_list e = false →
        _parse_argspec (mk (prefix ++ e :: suffix))
        = ('(tags', mapping') ← _parse_argspec (mk suffix);
           Ok ((tags ++ [e]) ++ tags', mapping' ∪ mapping))).
Proof.
  intros Hmk Hpre.
  assert (Hloop : ∀ l, _parse_argspec (mk l)
                       = for_each (parse_body false) l ([], ∅)).
  { intros l. destruct Hmk as [-> | ->];
      [apply parse_list_loop | apply parse_tuple_loop]. }
  assert (Hstep : _parse_argspec (mk (prefix ++ e :: suffix))
                  = (st ← parse_body false e (tags, mapping);
                     '(tags', mapping') ← _parse_argspec (mk suffix);
                     Ok (st.1 ++ tags', mapping' ∪ st.2))).
  { rewrite !Hloop in *. rewrite for_each_app, Hpre, bind_Ok.
    cbn [for_each].
    destruct (parse_body false e (tags, mapping)) as [[t1 m1]|err];
      [|reflexivity].
    rewrite !bind_Ok. apply for_each_parse_shift. }
  rewrite Hstep. split; [|split; [|split]].
  - by intros t ->.
  - intros k0 v1 vs ->. cbn [parse_body].
    by destruct (_get_key k0).
  - by intros ->.
  - intros Hl. destruct e; try reflexivity. discriminate.
Qed.

Lemma parse_sequence_element_witness :
  _parse_argspec (PyList [PyList [PyStr "urgent"];
                          PyList [PyStr "color"; PyStr "red"; PyStr "blue"];
                          PyTuple []])
  = Ok ([PyStr "urgent"; PyTuple []],
        {[ "color" := PyList [PyStr "red"; PyStr "blue"] ]}).
Proof.
  assert (Hpre : _parse_argspec (PyList [PyList [PyStr "urgent"]])
                 = Ok ([PyStr "urgent"], ∅)) by reflexivity.
  destruct (parse_sequence_element PyList [PyList [PyStr "urgent"]]
              [PyTuple []]
              (PyList [PyStr "color"; PyStr "red"; PyStr "blue"])
              [PyStr "urgent"] ∅ (or_introl eq_refl) Hpre) as (_ & Hkv & _ & _).
  etrans; [exact (Hkv _ _ _ eq_refl) | vm_compute; reflexivity].
Defined.

(** ** C4: items of a mapping-shaped argument *)



(** ** C5: the top-level dispatch *)

(** C5, as stated, at the integer zero: it is not None, not empty, not a
    mapping and not a sequence, and it is accepted with the empty result
    instead of being rejected. *)
Lemma parse_dispatch_zero_accepted :
  ¬ (∀ args : pyval,
       (none_or_empty args = true → _parse_argspec args = Ok ([], ∅))
       ∧ (none_or_empty args = false →
          is_mapping args = false → is_sequence args = false →
          _parse_argspec args = Raise (ValueError not_dict_or_sequence_msg))).
Proof.
  intros H. destruct (H (PyInt 0)) as [_ H0].
  specialize (H0 eq_refl eq_refl eq_refl). discriminate H0.
Qed.

(** C5, amended. The dispatch is on the truth value: every falsy argument
    (None and the empty string, list, tuple and dict, but also [0] and
    [False]) gives [([], {})]; every truthy argument that is not a dict, a
    list or a tuple raises "must be a dict or sequence"; every other
    argument enters the loop. Nothing else can happen. *)
Theorem parse_dispatch (args : pyval) :
  (none_or_empty args = true → truthy args = false)
  ∧ (truthy args = false → _parse_argspec args = Ok ([], ∅))
  ∧ (truthy args = true → is_mapping args = false → is_sequence args = false →
     _parse_argspec args = Raise (ValueError not_dict_or_sequence_msg))
  ∧ (truthy args = true → (is_mapping args || is_sequence args)%bool = true →
     _parse_argspec args
     = for_each (parse_body (is_dict args)) (iter_args args) ([], ∅)).
Proof.
  split; [|split; [|split]].
  - destruct args as [| | |s|xs|xs|items|b]; simpl; try discriminate; try done.
    + intros ->. reflexivity.
    + intros ->. reflexivity.
    + intros ->. reflexivity.
    + intros ->. reflexivity.
    + intros ->. reflexivity.
  - apply parse_falsy.
  - intros Ht Hm Hs. apply parse_not_container; [done|].
    unfold is_mapping, is_sequence in *. by rewrite <- orb_assoc, Hm, Hs.
  - intros Ht Hc. unfold _parse_argspec. rewrite Ht. simpl.
    unfold is_mapping, is_sequence in Hc. rewrite orb_assoc in Hc.
    by rewrite Hc.
Qed.

Lemma parse_dispatch_witness :
  _parse_argspec (PyBool false) = Ok ([], ∅)
  ∧ _parse_argspec (PyStr "color")
    = Raise (ValueError not_dict_or_sequence_msg).
Proof.
  destruct (parse_dispatch (PyBool false)) as (_ & Hfalsy & _).
  destruct (parse_dispatch (PyStr "color")) as (_ & _ & Hbad & _).
  split; [exact (Hfalsy eq_refl) | exact (Hbad eq_refl eq_refl eq_refl)].
Defined.

(** ** C6: key validation *)

Lemma in_class_newline : in_class "010"%char = false.
Proof. reflexivity. Qed.

Lemma at_dollar_true (s : string) :
  at_dollar s = true ↔ s = "" ∨ s = newline.
Proof.
  destruct s as [|c [|c' s]]; simpl.
  - split; [by left | done].
  - rewrite Ascii.eqb_eq. split.
    + intros ->. by right.
    + intros [H|H]; [discriminate | by injection H].
  - split; [done | intros [H|H]; discriminate].
Qed.

(** The run of class characters followed by [$]: either the whole rest is
    in the class, or it is so up to one final newline. *)
Lemma class_star_dollar_true (s : string) :
  class_star_dollar s = true
  ↔ all_in_class s = true
    ∨ ∃ p, all_in_class p = true ∧ s = p +:+ newline.
Proof.
  induction s as [|c s IH]; simpl.
  - split; [by left | done].
  - destruct (in_class c) eqn:Hc; simpl.
    + rewrite IH. split.
      * intros [H | (p & Hp & ->)]; [by left | right].
        exists (String c p). simpl. by rewrite Hc.
      * intros [H | (p & Hp & Heq)]; [by left | right].
        destruct p as [|c' p]; simpl in *.
        -- injection Heq as -> _. by rewrite in_class_newline in Hc.
        -- injection Heq as -> ->. apply andb_true_iff in Hp as [_ Hp]. eauto.
    + split.
      * intros H. right. exists "". split; [done|].
        destruct s as [|c' s]; [|done]. simpl in *.
        apply Ascii.eqb_eq in H as ->. done.
      * intros [H | (p & Hp & Heq)]; [done|].
        destruct p as [|c' p]; simpl in *.
        -- injection Heq as -> ->. reflexivity.
        -- injection Heq as -> _. apply andb_true_iff in Hp as [Hp _]. congruence.
Qed.

(** What [valid_key.match] accepts, against the pattern as the
    specification words it: the strings of the pattern, and those strings
    followed by one newline. *)
Lemma valid_key_match_true (s : string) :
  valid_key_match s = true
  ↔ spec_key_pattern s = true
    ∨ ∃ p, spec_key_pattern p = true ∧ s = p +:+ newline.
Proof.
  destruct s as [|c s]; simpl.
  - split; [done|]. intros [H | (p & Hp & Heq)]; [done|].
    destruct p; [done | discriminate].
  - unfold spec_key_pattern. simpl.
    rewrite andb_true_iff, class_star_dollar_true. split.
    + intros [Hc [Hs | (p & Hp & ->)]].
      * left. by rewrite Hc.
      * right. exists (String c p). simpl. by rewrite Hc.
    + intros [H | (p & Hp & Heq)].
      * apply andb_true_iff in H as [Hc Hs]. eauto.
      * destruct p as [|c' p]; [done|]. simpl in *.
        injection Heq as -> ->. apply andb_true_iff in Hp as [Hc Hp]. eauto.
Qed.

Lemma get_key_str (s : string) :
  _get_key (PyStr s)
  = if valid_key_match (lower s) then Ok (lower s)
    else Raise (ValueError (invalid_key_msg (lower s))).
Proof. unfold _get_key. simpl. by destruct (valid_key_match (lower s)). Qed.

(** A key accepted by [_get_key] is the lower-cased input, and it matches
    the worded pattern up to one trailing newline. *)
Lemma get_key_accepts (s k : string) :
  _get_key (PyStr s) = Ok k
  ↔ k = lower s
    ∧ (spec_key_pattern k = true
       ∨ ∃ p, spec_key_pattern p = true ∧ k = p +:+ newline).
Proof.
  rewrite get_key_str, <- valid_key_match_true.
  destruct (valid_key_match (lower s)) eqn:Hm; split.
  - intros [= <-]. done.
  - intros [-> _]. done.
  - discriminate.
  - intros [-> H]. congruence.
Qed.

(** The message of the rejection names the lower-cased key and the
    pattern. *)
Lemma get_key_rejects (s : string) :
  valid_key_match (lower s) = false →
  _get_key (PyStr s)
  = Raise (ValueError ("invalid metadata key " +:+ dquote +:+ lower s +:+ dquote
                       +:+ ", must match pattern ^[0-9a-z._-]+$")).
Proof. intros H. rewrite get_key_str, H. reflexivity. Qed.

Example get_key_Color : _get_key (PyStr "Color") = Ok "color".
Proof. reflexivity. Qed.

Example get_key_co_lor :
  _get_key (PyStr "co lor") = Raise (ValueError (invalid_key_msg "co lor")).
Proof. reflexivity. Qed.

(** C6. At the key ["color\n"] the code departs from the claim: the key is
    returned although it is not made of class characters only, because [$]
    also matches before a final newline. The two examples of the claim
    hold. *)
Theorem get_key_trailing_newline :
  _get_key (PyStr ("color" +:+ newline)) = Ok ("color" +:+ newline)
  ∧ spec_key_pattern (lower ("color" +:+ newline)) = false
  ∧ _get_key (PyStr "Color") = Ok "color"
  ∧ _get_key (PyStr "co lor") = Raise (ValueError (invalid_key_msg "co lor")).
Proof. repeat split. Qed.

(** ** The merge block *)

Lemma py_add_list_r (a : pyval) (ys : list pyval) (r : pyval) :
  py_add a (PyList ys) = Ok r → ∃ xs, a = PyList xs ∧ r = PyList (xs ++ ys).
Proof.
  destruct a as [| [] | | | xs | | |]; simpl; try discriminate.
  intros [= <-]. eauto.
Qed.

Lemma truthy_list (xs : list pyval) : truthy (PyList xs) = true ↔ xs ≠ [].
Proof. destruct xs; simpl; split; done. Qed.

Lemma merge_tags_absent (tags : list pyval) (mapping : gmap string pyval) :
  mapping !! "tag" = None →
  merge_tags tags mapping
  = Ok (if truthy (PyList tags) then <["tag" := PyList tags]> mapping
        else mapping).
Proof.
  intros H. unfold merge_tags, dict_get. rewrite H. simpl.
  by destruct (negb _).
Qed.

Lemma merge_tags_list (tags existing : list pyval)
    (mapping : gmap string pyval) :
  mapping !! "tag" = Some (PyList existing) →
  merge_tags tags mapping
  = Ok (if truthy (PyList (existing ++ tags))
        then <["tag" := PyList (existing ++ tags)]> mapping
        else mapping).
Proof.
  intros H. unfold merge_tags, dict_get. rewrite H.
  change (py_add (PyList existing) (PyList tags))
    with (Ok (A:=pyval) (PyList (existing ++ tags))).
  rewrite bind_Ok. by destruct (truthy _).
Qed.

(** A ["tag"] entry that is present and not a list makes the
    concatenation, and with it the block, raise [TypeError]. *)
Lemma merge_tags_not_list (tags : list pyval) (mapping : gmap string pyval)
    (v : pyval) :
  mapping !! "tag" = Some v → is_list v = false →
  merge_tags tags mapping = Raise TypeError.
Proof.
  intros H Hv. unfold merge_tags, dict_get. rewrite H.
  destruct v as [| [] | | | | | |]; try reflexivity. discriminate.
Qed.

(** The block succeeds exactly on the pairs the reconciler of section 4.3
    is worded for, and does what is worded there. *)
Lemma merge_tags_reconciled (tags : list pyval)
    (mapping mapping' : gmap string pyval) :
  merge_tags tags mapping = Ok mapping' ↔ reconciled tags mapping mapping'.
Proof.
  split.
  - intros H. destruct (mapping !! "tag") as [v|] eqn:Hv.
    + destruct (is_list v) eqn:Hl.
      * destruct v; try discriminate.
        rewrite (merge_tags_list _ _ _ Hv) in H. injection H as <-.
        exists xs. split; [by left|].
        destruct (xs ++ tags); simpl; split; done.
      * rewrite (merge_tags_not_list _ _ _ Hv Hl) in H. discriminate.
    + rewrite (merge_tags_absent _ _ Hv) in H. injection H as <-.
      exists []. split; [by right|]. simpl.
      destruct tags; simpl; split; done.
  - intros (existing & Hex & Hset & Hkeep).
    assert (Hgoal : Ok (A:=gmap string pyval)
              (if truthy (PyList (existing ++ tags))
               then <["tag" := PyList (existing ++ tags)]> mapping
               else mapping) = Ok mapping').
    { destruct (truthy (PyList (existing ++ tags))) eqn:Ht.
      - apply truthy_list in Ht. by rewrite Hset.
      - destruct (existing ++ tags) eqn:E; [by rewrite Hkeep | done]. }
    destruct Hex as [Hex | [Hex ->]].
    + by rewrite (merge_tags_list _ _ _ Hex).
    + by rewrite (merge_tags_absent _ _ Hex).
Qed.

(** ** C2: the reconciled ["tag"] entry *)

(** On a list-valued or absent ["tag"] entry the block stores the existing
    values followed by the bare tags, and adds no key when there is
    nothing to store. *)
Lemma merge_tags_lookup_tag (tags existing : list pyval)
    (mapping mapping' : gmap string pyval) :
  (mapping !! "tag" = Some (PyList existing)
   ∨ (mapping !! "tag" = None ∧ existing = [])) →
  merge_tags tags mapping = Ok mapping' →
  (existing ++ tags ≠ [] → mapping' !! "tag" = Some (PyList (existing ++ tags)))
  ∧ (existing ++ tags = [] → mapping' !! "tag" = mapping !! "tag").
Proof.
  intros Hex H. apply merge_tags_reconciled in H as (ex & Hex' & Hset & Hkeep).
  assert (ex = existing) as ->.
  { destruct Hex as [Hex | [Hex ->]], Hex' as [Hex' | [Hex' ->]]; congruence. }
  split.
  - intros Hne. rewrite (Hset Hne). apply lookup_insert_eq.
  - intros Hnil. by rewrite (Hkeep Hnil).
Qed.

Example merge_tags_example :
  merge_tags [PyStr "a"; PyStr "b"] {[ "tag" := PyList [PyStr "x"] ]}
  = Ok {[ "tag" := PyList [PyStr "x"; PyStr "a"; PyStr "b"] ]}.
Proof. vm_compute. reflexivity. Qed.

Example merge_tags_nothing : merge_tags [] ∅ = Ok ∅.
Proof. reflexivity. Qed.

(** C2. A scalar ["tag"] value from a dict-shaped argument is a pair
    produced by normalisation on which the block does not set
    [mapping["tag"]]: the concatenation raises [TypeError], and so does the
    whole shaping of the arguments. On list-valued entries the examples of
    the claim hold. *)
Theorem merge_tags_scalar_tag :
  _parse_argspec (PyDict [(PyStr "tag", PyStr "urgent")])
  = Ok ([], {[ "tag" := PyStr "urgent" ]})
  ∧ merge_tags [] {[ "tag" := PyStr "urgent" ]} = Raise TypeError
  ∧ shape_setter_args (PyDict [(PyStr "tag", PyStr "urgent")]) PyNone PyNone PyNone
    = Raise TypeError
  ∧ merge_tags [PyStr "a"; PyStr "b"] {[ "tag" := PyList [PyStr "x"] ]}
    = Ok {[ "tag" := PyList [PyStr "x"; PyStr "a"; PyStr "b"] ]}.
Proof. repeat split; vm_compute; reflexivity. Qed.

(** ** C10: the frame of the merge block *)

Lemma merge_tags_other_keys (tags : list pyval)
    (mapping mapping' : gmap string pyval) :
  merge_tags tags mapping = Ok mapping' →
  ∀ k, k ≠ "tag" → mapping' !! k = mapping !! k.
Proof.
  intros H k Hk. apply merge_tags_reconciled in H as (ex & _ & Hset & Hkeep).
  destruct (ex ++ tags) eqn:E.
  - by rewrite Hkeep.
  - rewrite Hset by done. by apply lookup_insert_ne.
Qed.

(** C10. After the merge every key other than ["tag"] has exactly the value
    (or the absence) it had in the normalised mapping. *)
Theorem merge_tags_frame (args : pyval) (tags : list pyval)
    (mapping mapping' : gmap string pyval) :
  _parse_argspec args = Ok (tags, mapping) →
  merge_tags tags mapping = Ok mapping' →
  ∀ k, k ≠ "tag" → mapping' !! k = mapping !! k.
Proof. intros _. apply merge_tags_other_keys. Qed.

Lemma merge_tags_frame_witness :
  ({[ "tag" := PyList [PyStr "urgent"]; "color" := PyList [PyStr "red"] ]}
     : gmap string pyval) !! "color"
  = ({[ "color" := PyList [PyStr "red"] ]} : gmap string pyval) !! "color".
Proof.
  refine (merge_tags_frame
            (PyList [PyList [PyStr "color"; PyStr "red"]; PyList [PyStr "urgent"]])
            [PyStr "urgent"] {[ "color" := PyList [PyStr "red"] ]}
            {[ "tag" := PyList [PyStr "urgent"]; "color" := PyList [PyStr "red"] ]}
            _ _ "color" _).
  - vm_compute. reflexivity.
  - vm_compute. reflexivity.
  - discriminate.
Defined.

(** ** C9: no falsy value in a canonical mapping *)

Lemma all_truthy_empty : all_truthy ∅.
Proof. intros k v H. by rewrite lookup_empty in H. Qed.

Lemma all_truthy_insert (mapping : gmap string pyval) (key : string)
    (v : pyval) :
  truthy v = true → all_truthy mapping → all_truthy (<[key := v]> mapping).
Proof.
  intros Hv Hm k w. destruct (decide (key = k)) as [->|Hne].
  - rewrite lookup_insert_eq. by intros [= <-].
  - rewrite lookup_insert_ne by done. apply Hm.
Qed.

(** Each pass through the loop body keeps the mapping free of falsy
    values. *)
Lemma parse_body_all_truthy (asdict : bool) (k : pyval) (st st' : parse_state) :
  all_truthy st.2 → parse_body asdict k st = Ok st' → all_truthy st'.2.
Proof.
  destruct st as [tags mapping]. simpl. intros Hm H.
  destruct asdict.
  - unfold parse_body in H.
    apply bind_Ok_inv in H as ([k0 v] & _ & H).
    destruct (truthy v) eqn:Hv.
    + apply bind_Ok_inv in H as (key & _ & [= <-]). simpl.
      by apply all_truthy_insert.
    + by injection H as <-.
  - unfold parse_body in H.
    destruct k as [| | | |elems| | |]; try (by injection H as <-).
    destruct elems as [|k0 [|v1 vs]]; [discriminate | by injection H as <- |].
    apply bind_Ok_inv in H as (key & _ & [= <-]). simpl.
    by apply all_truthy_insert.
Qed.

Lemma parse_all_truthy (args : pyval) (tags : list pyval)
    (mapping : gmap string pyval) :
  _parse_argspec args = Ok (tags, mapping) → all_truthy mapping.
Proof.
  unfold _parse_argspec. intros H.
  destruct (negb (truthy args)).
  { injection H as _ <-. apply all_truthy_empty. }
  destruct (negb _); [discriminate|].
  change mapping with (tags, mapping).2.
  eapply (for_each_invariant (λ st : parse_state, all_truthy st.2)); [| |exact H].
  - intros x st st'. apply parse_body_all_truthy.
  - apply all_truthy_empty.
Qed.

Lemma merge_tags_all_truthy (tags : list pyval)
    (mapping mapping' : gmap string pyval) :
  all_truthy mapping → merge_tags tags mapping = Ok mapping' →
  all_truthy mapping'.
Proof.
  intros Hm H. apply merge_tags_reconciled in H as (ex & _ & Hset & Hkeep).
  destruct (ex ++ tags) eqn:E.
  - by rewrite Hkeep.
  - rewrite Hset by done. by apply all_truthy_insert.
Qed.

(** C9. Whenever normalisation succeeds, every value of the mapping it
    returns is truthy, and so is every value of the mapping after the tag
    merge. *)
Theorem canonical_mapping_all_truthy (args : pyval) (tags : list pyval)
    (mapping : gmap string pyval) :
  _parse_argspec args = Ok (tags, mapping) →
  all_truthy mapping
  ∧ ∀ mapping', merge_tags tags mapping = Ok mapping' → all_truthy mapping'.
Proof.
  intros H. pose proof (parse_all_truthy _ _ _ H) as Hm.
  split; [done|]. intros mapping'. by apply merge_tags_all_truthy.
Qed.

Lemma canonical_mapping_all_truthy_witness :
  all_truthy {[ "mood" := PyStr "happy" ]}
  ∧ all_truthy {[ "tag" := PyList [PyStr "color"]; "mood" := PyStr "happy" ]}.
Proof.
  destruct (canonical_mapping_all_truthy
              (PyDict [(PyStr "color", PyStr ""); (PyStr "mood", PyStr "happy")])
              [PyStr "color"] {[ "mood" := PyStr "happy" ]})
    as [Hparsed Hmerged].
  - vm_compute. reflexivity.
  - split; [exact Hparsed|]. apply Hmerged. vm_compute. reflexivity.
Defined.

(** ** C1: which classes are reconciled *)

Lemma shape_setter_args_Ok (add init remove reset : pyval) (sa : setter_args) :
  shape_setter_args add init remove reset = Ok sa ↔
  ∃ untag m_remove purge m_reset tag_add m_add tag_init m_init,
    _parse_argspec remove = Ok (untag, m_remove)
    ∧ _parse_argspec reset = Ok (purge, m_reset)
    ∧ _parse_argspec add = Ok (tag_add, m_add)
    ∧ _parse_argspec init = Ok (tag_init, m_init)
    ∧ merge_tags untag m_remove = Ok (sa_remove sa)
    ∧ merge_tags tag_add m_add = Ok (sa_add sa)
    ∧ merge_tags tag_init m_init = Ok (sa_init sa)
    ∧ sa_reset sa = m_reset
    ∧ sa_purge sa = purge.
Proof.
  unfold shape_setter_args. split.
  - intros H.
    apply bind_Ok_inv in H as ([untag m_remove] & H1 & H).
    apply bind_Ok_inv in H as ([purge m_reset] & H2 & H).
    apply bind_Ok_inv in H as ([tag_add m_add] & H3 & H).
    apply bind_Ok_inv in H as ([tag_init m_init] & H4 & H).
    apply bind_Ok_inv in H as (r & H5 & H).
    apply bind_Ok_inv in H as (a & H6 & H).
    apply bind_Ok_inv in H as (i & H7 & H).
    injection H as <-. simpl.
    exists untag, m_remove, purge, m_reset, tag_add, m_add, tag_init, m_init.
    done.
  - intros (untag & m_remove & purge & m_reset & tag_add & m_add & tag_init
            & m_init & -> & -> & -> & -> & H5 & H6 & H7 & H8 & H9).
    rewrite !bind_Ok, H5, bind_Ok, H6, bind_Ok, H7, bind_Ok.
    destruct sa; simpl in *. by subst.
Qed.

(** C1, as stated, at [reset=[["urgent"]]]: the arguments are shaped
    without error, normalisation yields the bare tag ["urgent"] for the
    reset class, and the reset mapping handed on is not the reconciled one:
    it has no ["tag"] entry, and the tag travels in the purge list. *)
Lemma reset_tags_not_reconciled :
  ∃ sa, shape_setter_args PyNone PyNone PyNone (PyList [PyList [PyStr "urgent"]])
        = Ok sa
    ∧ _parse_argspec (PyList [PyList [PyStr "urgent"]]) = Ok ([PyStr "urgent"], ∅)
    ∧ ¬ reconciled [PyStr "urgent"] ∅ (sa_reset sa)
    ∧ sa_reset sa !! "tag" = None
    ∧ sa_purge sa = [PyStr "urgent"].
Proof.
  eexists. split; [reflexivity|]. split; [reflexivity|]. simpl.
  split; [|done].
  intros (ex & Hex & Hset & _).
  assert (ex = []) as ->.
  { destruct Hex as [Hex | [_ ->]]; [|done]. by rewrite lookup_empty in Hex. }
  specialize (Hset ltac:(done)).
  apply (f_equal (λ m : gmap string pyval, m !! "tag")) in Hset.
  rewrite lookup_insert_eq, lookup_empty in Hset. discriminate.
Qed.

(** C1, amended. The shaping of the arguments succeeds with [sa] exactly
    when the four arguments normalise and the remove, add and init pairs
    reconcile to the mappings of [sa]: each of these three has its own
    bare tags merged under ["tag"]. The reset mapping is handed on as
    normalised, and the bare entries of the reset class are handed on
    apart, as the purge list. *)
Theorem shape_setter_args_reconciles (add init remove reset : pyval)
    (sa : setter_args) :
  shape_setter_args add init remove reset = Ok sa ↔
  ∃ untag m_remove purge m_reset tag_add m_add tag_init m_init,
    _parse_argspec remove = Ok (untag, m_remove)
    ∧ _parse_argspec reset = Ok (purge, m_reset)
    ∧ _parse_argspec add = Ok (tag_add, m_add)
    ∧ _parse_argspec init = Ok (tag_init, m_init)
    ∧ reconciled untag m_remove (sa_remove sa)
    ∧ reconciled tag_add m_add (sa_add sa)
    ∧ reconciled tag_init m_init (sa_init sa)
    ∧ sa_reset sa = m_reset
    ∧ sa_purge sa = purge.
Proof.
  rewrite shape_setter_args_Ok.
  split; intros (untag & m_remove & purge & m_reset & tag_add & m_add
                 & tag_init & m_init & H1 & H2 & H3 & H4 & H5 & H6 & H7 & H8 & H9);
    exists untag, m_remove, purge, m_reset, tag_add, m_add, tag_init, m_init;
    repeat (split; [done|]); split_and!;
    try done; by apply merge_tags_reconciled.
Qed.

Lemma shape_setter_args_reconciles_witness :
  reconciled [PyStr "urgent"] {[ "status" := PyList [PyStr "draft"] ]}
    {[ "tag" := PyList [PyStr "urgent"]; "status" := PyList [PyStr "draft"] ]}.
Proof.
  pose (add := PyList [PyList [PyStr "status"; PyStr "draft"];
                       PyList [PyStr "urgent"]]).
  pose (sa := {| sa_reset := ∅;
                 sa_add := {[ "tag" := PyList [PyStr "urgent"];
                              "status" := PyList [PyStr "draft"] ]};
                 sa_init := ∅; sa_remove := ∅; sa_purge := [] |}).
  assert (Hsa : shape_setter_args add PyNone PyNone PyNone = Ok sa)
    by (vm_compute; reflexivity).
  assert (Hadd : _parse_argspec add
                 = Ok ([PyStr "urgent"], {[ "status" := PyList [PyStr "draft"] ]}))
    by (vm_compute; reflexivity).
  destruct (proj1 (shape_setter_args_reconciles add PyNone PyNone PyNone sa) Hsa)
    as (untag & m_remove & purge & m_reset & tag_add & m_add & tag_init & m_init
        & _ & _ & H3 & _ & _ & H6 & _).
  rewrite Hadd in H3. injection H3 as <- <-. exact H6.
Defined.

(** ** C8: isolation of the classes *)

Lemma shape_setter_args_per_class (add init remove reset : pyval)
    (sa : setter_args) :
  shape_setter_args add init remove reset = Ok sa →
  canonical_mapping remove = Ok (sa_remove sa)
  ∧ canonical_mapping add = Ok (sa_add sa)
  ∧ canonical_mapping init = Ok (sa_init sa)
  ∧ snd <$> _parse_argspec reset = Ok (sa_reset sa)
  ∧ fst <$> _parse_argspec reset = Ok (sa_purge sa).
Proof.
  intros H. apply shape_setter_args_Ok in H
    as (untag & m_remove & purge & m_reset & tag_add & m_add & tag_init & m_init
        & H1 & H2 & H3 & H4 & H5 & H6 & H7 & H8 & H9).
  unfold canonical_mapping. rewrite H1, H2, H3, H4. simpl.
  rewrite H8, H9. done.
Qed.

(** C8. Two invocations that both get through the shaping of their
    arguments and agree on the raw argument of one class hand on the same
    mapping for that class, whatever the other three arguments are. *)
Theorem class_isolation (add init remove reset add' init' remove' reset' : pyval)
    (sa sa' : setter_args) :
  shape_setter_args add init remove reset = Ok sa →
  shape_setter_args add' init' remove' reset' = Ok sa' →
  (remove = remove' → sa_remove sa = sa_remove sa')
  ∧ (reset = reset' → sa_reset sa = sa_reset sa')
  ∧ (add = add' → sa_add sa = sa_add sa')
  ∧ (init = init' → sa_init sa = sa_init sa').
Proof.
  intros H H'.
  apply shape_setter_args_per_class in H as (Hr & Ha & Hi & Hs & _).
  apply shape_setter_args_per_class in H' as (Hr' & Ha' & Hi' & Hs' & _).
  split_and!; intros <-; congruence.
Qed.

Lemma class_isolation_witness :
  sa_add {| sa_reset := ∅; sa_add := {[ "color" := PyList [PyStr "red"] ]};
            sa_init := ∅; sa_remove := {[ "tag" := PyList [PyStr "old"] ]};
            sa_purge := [] |}
  = sa_add {| sa_reset := ∅; sa_add := {[ "color" := PyList [PyStr "red"] ]};
              sa_init := ∅; sa_remove := ∅; sa_purge := [] |}.
Proof.
  pose (add := PyList [PyList [PyStr "color"; PyStr "red"]]).
  refine (proj1 (proj2 (proj2
    (class_isolation add PyNone (PyList [PyList [PyStr "old"]]) PyNone
                     add PyNone PyNone PyNone _ _ _ _))) eq_refl).
  - vm_compute. reflexivity.
  - vm_compute. reflexivity.
Defined.

(** ** C7: when the repository is asked to set metadata *)

Lemma dict_truthy_false (d : gmap string pyval) :
  dict_truthy d = false ↔ d = ∅.
Proof.
  unfold dict_truthy. rewrite negb_false_iff, Nat.eqb_eq.
  apply map_size_empty_iff.
Qed.

Lemma list_truthy_false (l : list pyval) : list_truthy l = false ↔ l = [].
Proof. destruct l; simpl; split; done. Qed.

Lemma guard_false (a : setter_args) :
  (dict_truthy (sa_reset a) || list_truthy (sa_purge a)
   || dict_truthy (sa_add a) || dict_truthy (sa_init a)
   || dict_truthy (sa_remove a))%bool = false
  ↔ nothing_to_set a.
Proof.
  unfold nothing_to_set.
  rewrite !orb_false_iff, !dict_truthy_false, list_truthy_false. tauto.
Qed.

Section CallProperties.
Context {mp meta res : Type}.
Variable mp_success : mp → bool.
Variable mp_file : mp → option string.
Variable mp_item0 : mp → option string.
Variable set_metadata : list string → setter_args → list mp.
Variable get_metadata : list string → list (string * meta).
Variable impossible_results : dataset → list res.
Variable error_result : dataset → string → res.
Variable ok_result : dataset → string → meta → res.

Let process_dataset :=
  Metadata.process_dataset mp_success mp_file mp_item0 set_metadata
    get_metadata impossible_results error_result ok_result.
Let process_datasets :=
  Metadata.process_datasets mp_success mp_file mp_item0 set_metadata
    get_metadata impossible_results error_result ok_result.

Lemma process_dataset_query_only (a : setter_args) (ds : dataset) :
  nothing_to_set a → ds_is_annex ds = true →
  (process_dataset a ds).1.1 = [GetMetadata (ds_paths ds)]
  ∧ (process_dataset a ds).2 = Exhausted.
Proof.
  intros Ha Hds. apply guard_false in Ha.
  unfold process_dataset, Metadata.process_dataset.
  rewrite Hds, Ha. done.
Qed.

(** With something to set the first call on an annex dataset is the set;
    it is followed by one query when the answers are read to the end, and
    by nothing when reading them raises. *)
Lemma process_dataset_sets (a : setter_args) (ds : dataset) :
  ¬ nothing_to_set a → ds_is_annex ds = true →
  (∃ mod_paths,
     (process_dataset a ds).1.1
     = [SetMetadata (ds_paths ds) a; GetMetadata mod_paths]
     ∧ (process_dataset a ds).2 = Exhausted)
  ∨ ((process_dataset a ds).1.1 = [SetMetadata (ds_paths ds) a]
     ∧ (process_dataset a ds).2 = KeyErrorRaised).
Proof.
  intros Ha Hds. rewrite <- guard_false in Ha.
  apply not_false_is_true in Ha.
  unfold process_dataset, Metadata.process_dataset.
  rewrite Hds, Ha. simpl.
  destruct (Metadata.handle_responses _ _ _ _ _ _ _) as [errors [mod_paths|]];
    simpl; [left; eauto | by right].
Qed.

Lemma process_dataset_not_annex (a : setter_args) (ds : dataset) :
  ds_is_annex ds = false →
  (process_dataset a ds).1.1 = [] ∧ (process_dataset a ds).2 = Exhausted.
Proof.
  intros Hds. unfold process_dataset, Metadata.process_dataset.
  by rewrite Hds.
Qed.

(** The calls of the loop over the datasets: those of the first dataset,
    followed by those of the others unless the first ended the generator. *)
Lemma process_datasets_cons (a : setter_args) (ds : dataset)
    (dss : list dataset) :
  ((process_dataset a ds).2 = Exhausted
   ∧ (process_datasets a (ds :: dss)).1.1
     = (process_dataset a ds).1.1 ++ (process_datasets a dss).1.1
   ∧ (process_datasets a (ds :: dss)).2 = (process_datasets a dss).2)
  ∨ ((process_dataset a ds).2 = KeyErrorRaised
     ∧ (process_datasets a (ds :: dss)).1.1 = (process_dataset a ds).1.1
     ∧ (process_datasets a (ds :: dss)).2 = KeyErrorRaised).
Proof.
  unfold process_datasets, process_dataset. simpl.
  destruct (Metadata.process_dataset _ _ _ _ _ _ _ _ a ds) as [[c1 r1] []].
  - left. by destruct (Metadata.process_datasets _ _ _ _ _ _ _ _ a dss)
      as [[c2 r2] e].
  - by right.
Qed.

Lemma process_datasets_query_only (a : setter_args) (dss : list dataset) :
  nothing_to_set a →
  (process_datasets a dss).1.1
  = map (λ ds, GetMetadata (ds_paths ds))
        (filter (λ ds, ds_is_annex ds = true) dss)
  ∧ (process_datasets a dss).2 = Exhausted.
Proof.
  intros Ha. induction dss as [|ds dss [IHc IHe]]; [done|].
  destruct (ds_is_annex ds) eqn:Hds.
  - destruct (process_dataset_query_only a ds Ha Hds) as [Hc He].
    destruct (process_datasets_cons a ds dss) as [(_ & -> & ->) | (He' & _)];
      [|congruence].
    rewrite filter_cons_True by done. by rewrite Hc, IHc.
  - destruct (process_dataset_not_annex a ds Hds) as [Hc He].
    destruct (process_datasets_cons a ds dss) as [(_ & -> & ->) | (He' & _)];
      [|congruence].
    rewrite filter_cons_False by congruence. by rewrite Hc, IHc.
Qed.

(** C7, amended. With [a] the shaped arguments of an invocation and
    [calls] the calls it makes on the repositories: when the four mappings
    and the purge list are all empty, no [set_metadata] call is made and
    only the query path runs, once for each annex dataset, on its own
    paths, to the end of the generator. *)
Theorem call_skips_set_metadata (dss : list dataset)
    (add init remove reset : pyval) (a : setter_args)
    (calls : list store_call) (rs : list res) (e : gen_end) :
  shape_setter_args add init remove reset = Ok a →
  Metadata.__call__ mp_success mp_file mp_item0 set_metadata get_metadata
    impossible_results error_result ok_result dss add init remove reset
  = Ok (calls, rs, e) →
  nothing_to_set a →
  existsb is_set_call calls = false
  ∧ calls = map (λ ds, GetMetadata (ds_paths ds))
                (filter (λ ds, ds_is_annex ds = true) dss)
  ∧ e = Exhausted.
Proof.
  intros Ha Hcall Hnone. unfold Metadata.__call__ in Hcall.
  rewrite Ha in Hcall. simpl in Hcall. injection Hcall as Hcall.
  destruct (process_datasets_query_only a dss Hnone) as [Hc He].
  unfold process_datasets in Hc, He. rewrite Hcall in Hc, He.
  simpl in Hc, He. subst calls e. clear Hcall. split; [|done].
  induction (filter _ dss) as [|ds l IH]; [done | exact IH].
Qed.
End CallProperties.

(** C7, as stated, at [reset=[["color"]]] on one annex dataset: the four
    mappings handed on are all empty, and [set_metadata] is called all the
    same, because the purge list is not empty. *)
Lemma purge_alone_calls_set_metadata :
  ∃ a calls rs e,
    shape_setter_args PyNone PyNone PyNone (PyList [PyList [PyStr "color"]])
    = Ok a
    ∧ Metadata.__call__ (λ _ : unit, true) (λ _, Some "f") (λ _, None)
        (λ _ _, [()]) (λ _, [("f", ())]) (λ _, []) (λ _ _, ()) (λ _ _ _, ())
        [Dataset "/ds" true ["f"]]
        PyNone PyNone PyNone (PyList [PyList [PyStr "color"]])
      = Ok (calls, rs, e)
    ∧ sa_remove a = ∅ ∧ sa_reset a = ∅ ∧ sa_add a = ∅ ∧ sa_init a = ∅
    ∧ existsb is_set_call calls = true.
Proof.
  eexists _, _, _, _. split; [reflexivity|]. split; [reflexivity|]. done.
Qed.

Lemma call_skips_set_metadata_witness :
  existsb is_set_call [GetMetadata ["f"]; GetMetadata ["g"; "h"]] = false
  ∧ [GetMetadata ["f"]; GetMetadata ["g"; "h"]]
    = map (λ ds, GetMetadata (ds_paths ds))
          (filter (λ ds, ds_is_annex ds = true)
             [Dataset "/a" true ["f"]; Dataset "/b" false ["x"];
              Dataset "/c" true ["g"; "h"]])
  ∧ Exhausted = Exhausted.
Proof.
  refine (call_skips_set_metadata (λ _ : unit, false) (λ _, None) (λ _, None)
            (λ _ _, [()]) (λ _, [] : list (string * unit))
            (λ _, [] : list unit) (λ _ _, ()) (λ _ _ _, ())
            [Dataset "/a" true ["f"]; Dataset "/b" false ["x"];
             Dataset "/c" true ["g"; "h"]]
            (PyList []) PyNone (PyDict []) (PyInt 0)
            {| sa_reset := ∅; sa_add := ∅; sa_init := ∅; sa_remove := ∅;
               sa_purge := [] |}
            [GetMetadata ["f"]; GetMetadata ["g"; "h"]] [] Exhausted _ _ _).
  - reflexivity.
  - reflexivity.
  - repeat split; reflexivity.
Defined.

(** * Further properties of the code *)

(** ** [_get_key] *)

Lemma lower_ascii_idemp (c : ascii) : lower_ascii (lower_ascii c) = lower_ascii c.
Proof. destruct c as [[] [] [] [] [] [] [] []]; reflexivity. Qed.

Lemma lower_idemp (s : string) : lower (lower s) = lower s.
Proof.
  induction s as [|c s IH]; simpl; [done|]. by rewrite lower_ascii_idemp, IH.
Qed.

Lemma get_key_Ok_inv (k : pyval) (key : string) :
  _get_key k = Ok key →
  ∃ s, k = PyStr s ∧ key = lower s ∧ valid_key_match key = true.
Proof.
  destruct k as [| | |s| | | |b]; try discriminate.
  rewrite get_key_str. destruct (valid_key_match (lower s)) eqn:Hm; [|discriminate].
  intros [= <-]. eauto.
Qed.

(** Validating an already validated key changes nothing, and a rejected
    key stays rejected with the same error: [_get_key] after [_get_key] is
    [_get_key]. *)
Theorem get_key_idempotent (s : string) :
  (_get_key (PyStr s) ≫= λ k, _get_key (PyStr k)) = _get_key (PyStr s).
Proof.
  rewrite (get_key_str s).
  destruct (valid_key_match (lower s)) eqn:Hm; [|reflexivity].
  rewrite bind_Ok, get_key_str, lower_idemp, Hm. reflexivity.
Qed.

(** An accepted key is not empty and has no upper-case letter left; it
    is made of characters of the class [[0-9a-z._-]], up to one final
    newline. *)
Theorem get_key_accepted_shape (s k : string) :
  _get_key (PyStr s) = Ok k →
  k ≠ "" ∧ lower k = k
  ∧ (all_in_class k = true
     ∨ ∃ p, all_in_class p = true ∧ p ≠ "" ∧ k = p +:+ newline).
Proof.
  intros H. apply get_key_Ok_inv in H as (s' & [= <-] & -> & Hm).
  split; [|split].
  - intros E. rewrite E in Hm. discriminate.
  - apply lower_idemp.
  - apply valid_key_match_true in Hm as [Hm | (p & Hp & Hk)];
      unfold spec_key_pattern in *.
    + left. by apply andb_true_iff in Hm as [_ ?].
    + right. apply andb_true_iff in Hp as [Hne Hp]. exists p.
      split_and!; [done | | done]. intros ->. discriminate.
Qed.

Lemma get_key_accepted_shape_witness :
  "color" ≠ "" ∧ lower "color" = "color"
  ∧ (all_in_class "color" = true
     ∨ ∃ p, all_in_class p = true ∧ p ≠ "" ∧ "color" = p +:+ newline).
Proof. apply (get_key_accepted_shape "CoLoR" "color"). reflexivity. Defined.

(** Keys are case-insensitive: two spellings with the same lower-case form
    have the same outcome, the same key or the same error. *)
Theorem get_key_case_insensitive (s t : string) :
  lower s = lower t → _get_key (PyStr s) = _get_key (PyStr t).
Proof. intros H. by rewrite !get_key_str, H. Qed.

Lemma get_key_case_insensitive_witness :
  _get_key (PyStr "Color") = _get_key (PyStr "cOLOR").
Proof. apply get_key_case_insensitive. reflexivity. Defined.

(** ** [_parse_argspec]: the loop as a whole *)

(** A list or tuple argument that is the concatenation of two normalises
    to the tags of the first followed by those of the second, and to the
    mapping of the second laid over that of the first (a key given again
    takes its later values). If the first part is rejected, so is the
    whole, with the same error. *)
Theorem parse_sequence_app (mk : list pyval → pyval) (xs ys : list pyval) :
  mk = PyList ∨ mk = PyTuple →
  _parse_argspec (mk (xs ++ ys))
  = ('(tags1, mapping1) ← _parse_argspec (mk xs);
     '(tags2, mapping2) ← _parse_argspec (mk ys);
     Ok (tags1 ++ tags2, mapping2 ∪ mapping1)).
Proof.
  intros Hmk.
  assert (Hloop : ∀ l, _parse_argspec (mk l)
                       = for_each (parse_body false) l ([], ∅)).
  { intros l. destruct Hmk as [-> | ->];
      [apply parse_list_loop | apply parse_tuple_loop]. }
  rewrite !Hloop, for_each_app.
  destruct (for_each (parse_body false) xs ([], ∅)) as [[t1 m1]|e];
    [|reflexivity].
  rewrite !bind_Ok. apply for_each_parse_shift.
Qed.

Lemma parse_sequence_app_witness :
  _parse_argspec (PyTuple ([PyList [PyStr "a"; PyStr "1"]; PyStr "x"]
                           ++ [PyList [PyStr "A"; PyStr "2"]; PyList [PyStr "y"]]))
  = Ok ([PyStr "x"; PyStr "y"], {[ "a" := PyList [PyStr "2"] ]}).
Proof.
  rewrite (parse_sequence_app PyTuple _ _ (or_intror eq_refl)).
  vm_compute. reflexivity.
Defined.

(** The same for a dict argument and the concatenation of its items. *)
Theorem parse_mapping_app (items1 items2 : list (pyval * pyval)) :
  _parse_argspec (PyDict (items1 ++ items2))
  = ('(tags1, mapping1) ← _parse_argspec (PyDict items1);
     '(tags2, mapping2) ← _parse_argspec (PyDict items2);
     Ok (tags1 ++ tags2, mapping2 ∪ mapping1)).
Proof.
  rewrite !parse_dict_loop. simpl iter_args. rewrite map_app, for_each_app.
  destruct (for_each (parse_body true) _ ([], ∅)) as [[t1 m1]|e];
    [|reflexivity].
  rewrite !bind_Ok. apply for_each_parse_shift.
Qed.

Lemma for_each_snoc_inv {S A} (body : A → S → result S) (xs : list A) (x : A)
    (st st' : S) :
  for_each body (xs ++ [x]) st = Ok st' →
  ∃ st1, for_each body xs st = Ok st1 ∧ body x st1 = Ok st'.
Proof.
  rewrite for_each_app. intros H.
  apply bind_Ok_inv in H as (st1 & H1 & H2). exists st1. split; [done|].
  simpl in H2. by destruct (body x st1).
Qed.

(** A tuple argument is treated exactly as the list of the same elements. *)
Theorem parse_tuple_as_list (xs : list pyval) :
  _parse_argspec (PyTuple xs) = _parse_argspec (PyList xs).
Proof. by rewrite parse_tuple_loop, parse_list_loop. Qed.

Lemma parse_body_list_tags (e : pyval) (st st' : parse_state) :
  parse_body false e st = Ok st' → st'.1 = st.1 ++ entry_tags e.
Proof.
  destruct st as [tags mapping]. unfold parse_body.
  destruct e as [| | | |elems| | |]; try (by intros [= <-]).
  destruct elems as [|k0 [|v1 vs]]; [discriminate | by intros [= <-] |].
  intros H. apply bind_Ok_inv in H as (key & _ & [= <-]). simpl.
  by rewrite app_nil_r.
Qed.

(** The tags of a list-form argument are, in the order of the entries,
    the sole elements of the one-element lists and the entries that are
    not lists; nothing is dropped, reordered or deduplicated. *)
Theorem parse_sequence_tags (xs : list pyval) (tags : list pyval)
    (mapping : gmap string pyval) :
  _parse_argspec (PyList xs) = Ok (tags, mapping) →
  tags = flat_map entry_tags xs.
Proof.
  rewrite parse_list_loop. revert tags mapping.
  induction xs as [|e xs IH] using rev_ind; intros tags mapping H.
  - by injection H as <- <-.
  - apply for_each_snoc_inv in H as ([t1 m1] & H1 & H2).
    apply parse_body_list_tags in H2. simpl in H2.
    rewrite H2, (IH _ _ H1), flat_map_app. simpl. by rewrite app_nil_r.
Qed.

Lemma parse_sequence_tags_witness :
  [PyStr "x"; PyInt 3; PyStr "x"]
  = flat_map entry_tags [PyList [PyStr "x"]; PyList [PyStr "k"; PyStr "v"];
                         PyInt 3; PyStr "x"].
Proof.
  apply (parse_sequence_tags _ _ {[ "k" := PyList [PyStr "v"] ]}).
  vm_compute. reflexivity.
Defined.

Lemma parse_body_list_succeeds (e : pyval) (st : parse_state) :
  (∃ st', parse_body false e st = Ok st') ↔ entry_ok e = true.
Proof.
  destruct st as [tags mapping]. unfold parse_body, entry_ok.
  destruct e as [| | | |elems| | |]; try (split; [done | eauto]).
  destruct elems as [|k0 [|v1 vs]].
  - split; [intros [st' H]; discriminate | discriminate].
  - split; [done | eauto].
  - destruct (_get_key k0) as [key|err]; simpl.
    + split; [done | eauto].
    + split; [intros [st' H]; discriminate | discriminate].
Qed.

(** A list-form argument normalises exactly when none of its entries is
    the empty list or a list of two or more elements whose first is not a
    valid key; no content of the other entries can make it fail. *)
Theorem parse_sequence_succeeds (xs : list pyval) :
  (∃ st, _parse_argspec (PyList xs) = Ok st) ↔ forallb entry_ok xs = true.
Proof.
  rewrite parse_list_loop. generalize (([], ∅) : parse_state).
  induction xs as [|e xs IH]; intros st; simpl.
  - split; [done | eauto].
  - rewrite andb_true_iff, <- (parse_body_list_succeeds e st). split.
    + intros [st' H]. apply bind_Ok_inv in H as (st1 & H1 & H2).
      split; [eauto|]. apply (IH st1). eauto.
    + intros [[st1 H1] H2]. apply (IH st1) in H2 as [st' H2].
      exists st'. by rewrite H1.
Qed.

Lemma keys_valid_empty : keys_valid ∅.
Proof. intros k [v H]. by rewrite lookup_empty in H. Qed.

Lemma keys_valid_insert (mapping : gmap string pyval) (k : pyval)
    (key : string) (v : pyval) :
  _get_key k = Ok key → keys_valid mapping → keys_valid (<[key := v]> mapping).
Proof.
  intros Hk Hm k'. destruct (decide (key = k')) as [<-|Hne].
  - intros _. apply get_key_Ok_inv in Hk as (s & _ & -> & Hv).
    split; [done | apply lower_idemp].
  - rewrite lookup_insert_ne by done. apply Hm.
Qed.

Lemma parse_body_keys_valid (asdict : bool) (k : pyval) (st st' : parse_state) :
  keys_valid st.2 → parse_body asdict k st = Ok st' → keys_valid st'.2.
Proof.
  destruct st as [tags mapping]. simpl. intros Hm H.
  destruct asdict; unfold parse_body in H.
  - apply bind_Ok_inv in H as ([k0 v] & _ & H).
    destruct (truthy v).
    + apply bind_Ok_inv in H as (key & Hkey & [= <-]). simpl.
      by eapply keys_valid_insert.
    + by injection H as <-.
  - destruct k as [| | | |elems| | |]; try (by injection H as <-).
    destruct elems as [|k0 [|v1 vs]]; [discriminate | by injection H as <- |].
    apply bind_Ok_inv in H as (key & Hkey & [= <-]). simpl.
    by eapply keys_valid_insert.
Qed.

Lemma parse_keys_valid_aux (args : pyval) (tags : list pyval)
    (mapping : gmap string pyval) :
  _parse_argspec args = Ok (tags, mapping) → keys_valid mapping.
Proof.
  unfold _parse_argspec. intros H.
  destruct (negb (truthy args)).
  { injection H as _ <-. apply keys_valid_empty. }
  destruct (negb _); [discriminate|].
  change mapping with (tags, mapping).2.
  eapply (for_each_invariant (λ st : parse_state, keys_valid st.2)); [| |exact H].
  - intros x st st'. apply parse_body_keys_valid.
  - apply keys_valid_empty.
Qed.

(** Every key of a mapping returned by [_parse_argspec] has passed
    [_get_key]: it is matched by [valid_key] and is in lower case,
    whatever the shape of the argument. *)
Theorem parse_keys_valid (args : pyval) (tags : list pyval)
    (mapping : gmap string pyval) :
  _parse_argspec args = Ok (tags, mapping) → keys_valid mapping.
Proof. apply parse_keys_valid_aux. Qed.

Lemma parse_keys_valid_witness : keys_valid {[ "mood" := PyStr "happy" ]}.
Proof.
  apply (parse_keys_valid (PyDict [(PyStr "MOOD", PyStr "happy")]) []).
  vm_compute. reflexivity.
Defined.

Lemma parse_body_adds (asdict : bool) (k : pyval) (st st' : parse_state) :
  parse_body asdict k st = Ok st' → st'.1 ≠ [] ∨ st'.2 ≠ ∅.
Proof.
  assert (Htag : ∀ (l : list pyval) t, l ++ [t] ≠ []) by (by intros [|??] ?).
  destruct st as [tags mapping]. intros H.
  destruct asdict; unfold parse_body in H.
  - apply bind_Ok_inv in H as ([k0 v] & _ & H).
    destruct (truthy v).
    + apply bind_Ok_inv in H as (key & _ & [= <-]). right.
      apply insert_non_empty.
    + injection H as <-. left. apply Htag.
  - destruct k as [| | | |elems| | |];
      try (injection H as <-; left; apply Htag).
    destruct elems as [|k0 [|v1 vs]];
      [discriminate | injection H as <-; left; apply Htag |].
    apply bind_Ok_inv in H as (key & _ & [= <-]). right.
    apply insert_non_empty.
Qed.

Lemma parse_truthy_nonempty_aux (args : pyval) (tags : list pyval)
    (mapping : gmap string pyval) :
  _parse_argspec args = Ok (tags, mapping) →
  (tags = [] ∧ mapping = ∅) → truthy args = false.
Proof.
  intros H.
  intros [-> ->]. destruct (truthy args) eqn:Ht; [exfalso | done].
  unfold _parse_argspec in H. rewrite Ht in H. simpl in H.
  destruct (negb (is_dict args || is_list args || is_tuple args)) eqn:Hc;
    [discriminate|].
  assert (Hne : iter_args args ≠ []).
  { destruct args as [| | | |xs|xs|items|b]; simpl in *; try discriminate.
    - by destruct xs.
    - by destruct xs.
    - by destruct items. }
  destruct (iter_args args) as [|x l _] using rev_ind; [done|].
  apply for_each_snoc_inv in H as (st1 & _ & H).
  apply parse_body_adds in H as [H|H]; done.
Qed.

(** Whatever [_parse_argspec] accepts and is not falsy leaves something to
    do: at least one tag or at least one key. Only a falsy argument
    normalises to [([], {})]. *)
Theorem parse_truthy_nonempty (args : pyval) (tags : list pyval)
    (mapping : gmap string pyval) :
  _parse_argspec args = Ok (tags, mapping) →
  (tags = [] ∧ mapping = ∅) ↔ truthy args = false.
Proof.
  intros H. split; [by apply parse_truthy_nonempty_aux|].
  intros Hf. rewrite (parse_falsy _ Hf) in H. by injection H as <- <-.
Qed.

Lemma parse_truthy_nonempty_witness :
  (([] : list pyval) = [] ∧ (∅ : gmap string pyval) = ∅)
  ↔ truthy (PyTuple []) = false.
Proof. apply (parse_truthy_nonempty (PyTuple []) [] ∅). reflexivity. Defined.

Lemma for_each_raise_at {S A} (body : A → S → result S) (xs ys : list A)
    (x : A) (st st1 : S) (e : exn) :
  for_each body xs st = Ok st1 → body x st1 = Raise e →
  for_each body (xs ++ x :: ys) st = Raise e.
Proof. intros H Hx. rewrite for_each_app, H. simpl. by rewrite Hx. Qed.

Lemma get_key_non_str (k : pyval) (err : exn) :
  non_str_key_error k = Some err → _get_key k = Raise err.
Proof. destruct k; simpl; intros [= <-]; reflexivity. Qed.

(** The key of a stored entry must be a [str]. A key that is None, a bool,
    an int, a list, a tuple or a dict has no [lower] and raises
    [AttributeError]; a [bytes] key raises [TypeError] in the match. This
    ends the normalisation, whatever follows, when the key would be stored:
    in a list entry of two or more elements, or in a dict item with a
    truthy value. A dict item with a falsy value is taken as a tag
    whatever its key is. *)
Theorem parse_non_string_key (k v : pyval) (vs : list pyval) (err : exn)
    (items rest : list (pyval * pyval)) (xs ys tags : list pyval)
    (mapping : gmap string pyval) :
  non_str_key_error k = Some err →
  (_parse_argspec (PyList xs) = Ok (tags, mapping) →
   _parse_argspec (PyList (xs ++ PyList (k :: v :: vs) :: ys)) = Raise err)
  ∧ (_parse_argspec (PyDict items) = Ok (tags, mapping) →
     (truthy v = true →
      _parse_argspec (PyDict (items ++ (k, v) :: rest)) = Raise err)
     ∧ (truthy v = false →
        _parse_argspec (PyDict (items ++ [(k, v)]))
        = Ok (tags ++ [k], mapping))).
Proof.
  intros Hk. apply get_key_non_str in Hk. split; intros H.
  - rewrite parse_list_loop in *. apply (for_each_raise_at _ _ _ _ _ _ _ H).
    unfold parse_body. by rewrite Hk.
  - rewrite !parse_dict_loop in *. simpl iter_args in *. split; intros Hv.
    + rewrite map_app. simpl map. apply (for_each_raise_at _ _ _ _ _ _ _ H).
      unfold parse_body. simpl. by rewrite Hv, Hk.
    + rewrite map_app. simpl map. rewrite (for_each_snoc _ _ _ _ _ H).
      unfold parse_body. simpl. by rewrite Hv.
Qed.

Lemma parse_non_string_key_witness :
  _parse_argspec (PyList ([PyStr "x"]
                          ++ PyList [PyBytes "color"; PyStr "red"]
                             :: [PyList [PyStr "y"]]))
  = Raise TypeError.
Proof.
  refine (proj1 (parse_non_string_key (PyBytes "color") (PyStr "red") []
                   TypeError [] [] [PyStr "x"] [PyList [PyStr "y"]]
                   [PyStr "x"] ∅ eq_refl) _).
  reflexivity.
Defined.

(** ** The errors of [_parse_argspec] *)

Lemma for_each_Raise_inv {S A} (body : A → S → result S) (xs : list A)
    (st : S) (e : exn) :
  for_each body xs st = Raise e → ∃ x st1, x ∈ xs ∧ body x st1 = Raise e.
Proof.
  revert st. induction xs as [|x xs IH]; intros st H; simpl in H.
  - discriminate.
  - destruct (body x st) as [st'|e'] eqn:Hx; simpl in H.
    + destruct (IH _ H) as (y & st1 & Hin & Hy).
      exists y, st1. split; [by apply list_elem_of_further | done].
    + injection H as ->. exists x, st. split; [apply list_elem_of_here | done].
Qed.

Lemma get_key_Raise_inv (k : pyval) (e : exn) :
  _get_key k = Raise e →
  e = AttributeError ∨ (e = TypeError ∧ ∃ b, k = PyBytes b)
  ∨ ∃ key, e = ValueError (invalid_key_msg key).
Proof.
  destruct k as [| | |s| | | |b]; try (intros [= <-]; by left).
  - rewrite get_key_str. destruct (valid_key_match (lower s)); [discriminate|].
    intros [= <-]. right. right. eauto.
  - intros [= <-]. right. left. eauto.
Qed.

Lemma parse_errors_aux (args : pyval) (e : exn) :
  _parse_argspec args = Raise e →
  e = AttributeError
  ∨ e = TypeError
  ∨ e = ValueError not_dict_or_sequence_msg
  ∨ e = ValueError something_weird_msg
  ∨ ∃ key, e = ValueError (invalid_key_msg key).
Proof.
  unfold _parse_argspec.
  destruct (negb (truthy args)); [discriminate|].
  destruct (negb (is_dict args || is_list args || is_tuple args)) eqn:Hc.
  { intros [= <-]. right. right. by left. }
  intros H. apply for_each_Raise_inv in H as (x & [tags mapping] & Hin & H).
  assert (Hkey : ∀ k, _get_key k = Raise e →
            e = AttributeError ∨ e = TypeError
            ∨ e = ValueError not_dict_or_sequence_msg
            ∨ e = ValueError something_weird_msg
            ∨ ∃ key, e = ValueError (invalid_key_msg key)).
  { intros k Hk. apply get_key_Raise_inv in Hk as [->|[[-> _]|Hk]];
      [by left | by right; left | by right; right; right; right]. }
  unfold parse_body in H.
  destruct args as [| | | |xs|xs|items|b]; try discriminate; simpl in H, Hin.
  - destruct x as [| | | |elems| | |]; try discriminate.
    destruct elems as [|k0 [|v1 vs]]; [|discriminate|].
    + injection H as <-. right. right. right. by left.
    + destruct (_get_key k0) eqn:Hk; [discriminate|].
      injection H as ->. by apply (Hkey k0).
  - destruct x as [| | | |elems| | |]; try discriminate.
    destruct elems as [|k0 [|v1 vs]]; [|discriminate|].
    + injection H as <-. right. right. right. by left.
    + destruct (_get_key k0) eqn:Hk; [discriminate|].
      injection H as ->. by apply (Hkey k0).
  - apply list_elem_of_fmap in Hin as ([k0 v] & -> & _). simpl in H.
    destruct (truthy v); [|discriminate].
    destruct (_get_key k0) eqn:Hk; [discriminate|].
    injection H as ->. by apply (Hkey k0).
Qed.

(** On the modelled values [_parse_argspec] raises nothing but
    [AttributeError] (a key without [lower]), [TypeError] (a [bytes] key)
    and [ValueError] with one of its three messages: not a dict or
    sequence, an empty list entry, an invalid key. *)
Theorem parse_errors (args : pyval) (e : exn) :
  _parse_argspec args = Raise e →
  e = AttributeError
  ∨ e = TypeError
  ∨ e = ValueError not_dict_or_sequence_msg
  ∨ e = ValueError something_weird_msg
  ∨ ∃ key, e = ValueError (invalid_key_msg key).
Proof. apply parse_errors_aux. Qed.

Lemma parse_errors_witness :
  ValueError something_weird_msg = AttributeError
  ∨ ValueError something_weird_msg = TypeError
  ∨ ValueError something_weird_msg = ValueError not_dict_or_sequence_msg
  ∨ ValueError something_weird_msg = ValueError something_weird_msg
  ∨ ∃ key, ValueError something_weird_msg = ValueError (invalid_key_msg key).
Proof. apply (parse_errors (PyList [PyList []])). reflexivity. Defined.

(** ** The merge block, continued *)

Lemma merge_tags_lookup_tag_witness :
  ([PyStr "x"] ++ [PyStr "a"; PyStr "b"] ≠ [] →
   ({[ "tag" := PyList [PyStr "x"; PyStr "a"; PyStr "b"] ]}
      : gmap string pyval) !! "tag"
   = Some (PyList ([PyStr "x"] ++ [PyStr "a"; PyStr "b"])))
  ∧ ([PyStr "x"] ++ [PyStr "a"; PyStr "b"] = [] →
     ({[ "tag" := PyList [PyStr "x"; PyStr "a"; PyStr "b"] ]}
        : gmap string pyval) !! "tag"
     = ({[ "tag" := PyList [PyStr "x"] ]} : gmap string pyval) !! "tag").
Proof.
  apply (merge_tags_lookup_tag [PyStr "a"; PyStr "b"] [PyStr "x"]
           {[ "tag" := PyList [PyStr "x"] ]}).
  - left. reflexivity.
  - vm_compute. reflexivity.
Defined.

(** Merging bare tags in two rounds is merging them at once: the second
    round appends to what the first stored, and a ["tag"] entry that is
    not a list fails the one as it fails the other. *)
Theorem merge_tags_app (tags1 tags2 : list pyval)
    (mapping : gmap string pyval) :
  (merge_tags tags1 mapping ≫= merge_tags tags2)
  = merge_tags (tags1 ++ tags2) mapping.
Proof.
  destruct (mapping !! "tag") as [v|] eqn:Hv.
  - destruct (is_list v) eqn:Hl.
    + destruct v as [| | | |ex| | |]; try discriminate.
      rewrite (merge_tags_list _ _ _ Hv), (merge_tags_list _ _ _ Hv), bind_Ok.
      rewrite (assoc_L (++)).
      destruct (ex ++ tags1) as [|x l] eqn:E.
      * apply app_eq_nil in E as [-> ->]. simpl.
        by rewrite (merge_tags_list _ _ _ Hv).
      * rewrite (merge_tags_list tags2 (x :: l)) by apply lookup_insert_eq.
        simpl. by rewrite insert_insert_eq.
    + by rewrite !(merge_tags_not_list _ _ _ Hv Hl).
  - rewrite !(merge_tags_absent _ _ Hv), bind_Ok.
    destruct tags1 as [|x l]; simpl.
    + by rewrite (merge_tags_absent _ _ Hv).
    + rewrite (merge_tags_list tags2 (x :: l)) by apply lookup_insert_eq.
      simpl. by rewrite insert_insert_eq.
Qed.

(** With no bare tag to merge the block leaves the mapping as it is,
    whenever it does not raise. *)
Theorem merge_tags_nil (mapping mapping' : gmap string pyval) :
  merge_tags [] mapping = Ok mapping' → mapping' = mapping.
Proof.
  intros H. apply merge_tags_reconciled in H as (ex & Hex & Hset & Hkeep).
  rewrite app_nil_r in *. destruct ex as [|x l]; [by apply Hkeep|].
  rewrite Hset by done. apply insert_id.
  by destruct Hex as [Hex | [_ ?]].
Qed.

Lemma merge_tags_nil_witness :
  ({[ "tag" := PyList [PyStr "x"] ]} : gmap string pyval)
  = {[ "tag" := PyList [PyStr "x"] ]}.
Proof. apply merge_tags_nil. vm_compute. reflexivity. Defined.

(** ** The shaping of the setter arguments, continued *)

(** The arguments are normalised in the order remove, reset, add, init
    and the first one rejected decides the error of the invocation,
    whatever the later ones are. *)
Theorem shape_setter_args_first_error (add init remove reset : pyval)
    (e : exn) :
  (_parse_argspec remove = Raise e →
   shape_setter_args add init remove reset = Raise e)
  ∧ (∀ st1, _parse_argspec remove = Ok st1 → _parse_argspec reset = Raise e →
     shape_setter_args add init remove reset = Raise e)
  ∧ (∀ st1 st2, _parse_argspec remove = Ok st1 → _parse_argspec reset = Ok st2 →
     _parse_argspec add = Raise e →
     shape_setter_args add init remove reset = Raise e)
  ∧ (∀ st1 st2 st3, _parse_argspec remove = Ok st1 →
     _parse_argspec reset = Ok st2 → _parse_argspec add = Ok st3 →
     _parse_argspec init = Raise e →
     shape_setter_args add init remove reset = Raise e).
Proof.
  unfold shape_setter_args. split_and!.
  - by intros ->.
  - by intros [??] -> ->.
  - by intros [??] [??] -> -> ->.
  - by intros [??] [??] [??] -> -> -> ->.
Qed.

Lemma shape_setter_args_first_error_witness :
  shape_setter_args (PyList [PyList []]) PyNone (PyInt 7) PyNone
  = Raise (ValueError not_dict_or_sequence_msg).
Proof.
  apply (shape_setter_args_first_error (PyList [PyList []]) PyNone (PyInt 7) PyNone).
  reflexivity.
Defined.

Lemma merge_tags_keys_valid (tags : list pyval)
    (mapping mapping' : gmap string pyval) :
  keys_valid mapping → merge_tags tags mapping = Ok mapping' →
  keys_valid mapping'.
Proof.
  intros Hm H. apply merge_tags_reconciled in H as (ex & _ & Hset & Hkeep).
  destruct (ex ++ tags) eqn:E.
  - by rewrite Hkeep.
  - rewrite Hset by done. intros k.
    destruct (decide ("tag" = k)) as [<-|Hne]; [done|].
    rewrite lookup_insert_ne by done. apply Hm.
Qed.

(** Every key of every mapping handed to [set_metadata] is a valid key in
    lower case: the keys that passed [_get_key], and ["tag"]. *)
Theorem shape_setter_args_keys_valid (add init remove reset : pyval)
    (sa : setter_args) :
  shape_setter_args add init remove reset = Ok sa →
  keys_valid (sa_remove sa) ∧ keys_valid (sa_reset sa)
  ∧ keys_valid (sa_add sa) ∧ keys_valid (sa_init sa).
Proof.
  intros H. apply shape_setter_args_Ok in H
    as (untag & m_remove & purge & m_reset & tag_add & m_add & tag_init & m_init
        & H1 & H2 & H3 & H4 & H5 & H6 & H7 & H8 & H9).
  apply parse_keys_valid_aux in H1, H2, H3, H4. rewrite H8.
  split_and!.
  - exact (merge_tags_keys_valid _ _ _ H1 H5).
  - done.
  - exact (merge_tags_keys_valid _ _ _ H3 H6).
  - exact (merge_tags_keys_valid _ _ _ H4 H7).
Qed.

Lemma shape_setter_args_keys_valid_witness :
  keys_valid {[ "tag" := PyList [PyStr "Old"] ]} ∧ keys_valid ∅
  ∧ keys_valid {[ "color" := PyList [PyStr "Red"] ]} ∧ keys_valid ∅.
Proof.
  refine (shape_setter_args_keys_valid
            (PyList [PyList [PyStr "Color"; PyStr "Red"]]) PyNone
            (PyList [PyStr "Old"]) PyNone
            {| sa_reset := ∅; sa_add := {[ "color" := PyList [PyStr "Red"] ]};
               sa_init := ∅; sa_remove := {[ "tag" := PyList [PyStr "Old"] ]};
               sa_purge := [] |} _).
  vm_compute. reflexivity.
Defined.

(** ** When an invocation has something to set *)

Lemma merge_tags_empty_inv (tags : list pyval) (mapping : gmap string pyval) :
  merge_tags tags mapping = Ok ∅ → tags = [] ∧ mapping = ∅.
Proof.
  intros H. apply merge_tags_reconciled in H as (ex & _ & Hset & Hkeep).
  destruct (ex ++ tags) as [|x l] eqn:E.
  - apply app_eq_nil in E as [_ ->]. split; [done|]. symmetry. by apply Hkeep.
  - specialize (Hset ltac:(done)). symmetry in Hset.
    by apply insert_non_empty in Hset.
Qed.

Lemma parse_nothing_inv (args : pyval) :
  _parse_argspec args = Ok ([], ∅) → truthy args = false.
Proof. intros H. by apply (parse_truthy_nonempty_aux args [] ∅ H). Qed.

(** After the shaping of the arguments there is nothing to set exactly
    when none of the four arguments was given (all four are falsy). *)
Lemma nothing_to_set_falsy (add init remove reset : pyval) (a : setter_args) :
  shape_setter_args add init remove reset = Ok a →
  nothing_to_set a
  ↔ (truthy add || truthy init || truthy remove || truthy reset)%bool = false.
Proof.
  intros H. rewrite !orb_false_iff. split.
  - intros (Hreset & Hadd & Hinit & Hremove & Hpurge).
    apply shape_setter_args_Ok in H
      as (untag & m_remove & purge & m_reset & tag_add & m_add & tag_init
          & m_init & H1 & H2 & H3 & H4 & H5 & H6 & H7 & H8 & H9).
    rewrite Hremove in H5. rewrite Hadd in H6. rewrite Hinit in H7.
    apply merge_tags_empty_inv in H5 as [-> ->], H6 as [-> ->], H7 as [-> ->].
    rewrite Hreset in H8. rewrite Hpurge in H9. subst.
    apply parse_nothing_inv in H1, H2, H3, H4. done.
  - intros [[[Hadd Hinit] Hremove] Hreset].
    unfold shape_setter_args in H.
    rewrite (parse_falsy _ Hadd), (parse_falsy _ Hinit),
      (parse_falsy _ Hremove), (parse_falsy _ Hreset) in H.
    injection H as <-. by repeat split.
Qed.

Section CallTrace.
Context {mp meta res : Type}.
Variable mp_success : mp → bool.
Variable mp_file : mp → option string.
Variable mp_item0 : mp → option string.
Variable set_metadata : list string → setter_args → list mp.
Variable get_metadata : list string → list (string * meta).
Variable impossible_results : dataset → list res.
Variable error_result : dataset → string → res.
Variable ok_result : dataset → string → meta → res.

Let process_dataset :=
  Metadata.process_dataset mp_success mp_file mp_item0 set_metadata
    get_metadata impossible_results error_result ok_result.
Let process_datasets :=
  Metadata.process_datasets mp_success mp_file mp_item0 set_metadata
    get_metadata impossible_results error_result ok_result.
Let call :=
  Metadata.__call__ mp_success mp_file mp_item0 set_metadata get_metadata
    impossible_results error_result ok_result.

(** The calls made for one dataset: none, one query, one set followed by
    one query, or one set after which the generator ends. *)
Lemma process_dataset_calls (a : setter_args) (ds : dataset) :
  (ds_is_annex ds = false ∧ (process_dataset a ds).1.1 = []
   ∧ (process_dataset a ds).2 = Exhausted)
  ∨ (ds_is_annex ds = true ∧ nothing_to_set a
     ∧ (process_dataset a ds).1.1 = [GetMetadata (ds_paths ds)]
     ∧ (process_dataset a ds).2 = Exhausted)
  ∨ (ds_is_annex ds = true ∧ ¬ nothing_to_set a
     ∧ ((∃ mod_paths, (process_dataset a ds).1.1
                      = [SetMetadata (ds_paths ds) a; GetMetadata mod_paths]
                      ∧ (process_dataset a ds).2 = Exhausted)
        ∨ ((process_dataset a ds).1.1 = [SetMetadata (ds_paths ds) a]
           ∧ (process_dataset a ds).2 = KeyErrorRaised))).
Proof.
  destruct (ds_is_annex ds) eqn:Hds.
  - right.
    destruct (dict_truthy (sa_reset a) || list_truthy (sa_purge a)
              || dict_truthy (sa_add a) || dict_truthy (sa_init a)
              || dict_truthy (sa_remove a))%bool eqn:Hg.
    + right. assert (Hn : ¬ nothing_to_set a).
      { rewrite <- guard_false. congruence. }
      split_and!; [done..|]. by apply process_dataset_sets.
    + left. apply guard_false in Hg. split; [done|]. split; [done|].
      by apply process_dataset_query_only.
  - left. split; [done|]. by apply process_dataset_not_annex.
Qed.

Lemma call_Ok_inv (dss : list dataset) (add init remove reset : pyval)
    (calls : list store_call) (rs : list res) (e : gen_end) :
  call dss add init remove reset = Ok (calls, rs, e) →
  ∃ a, shape_setter_args add init remove reset = Ok a
       ∧ calls = (process_datasets a dss).1.1
       ∧ e = (process_datasets a dss).2.
Proof.
  unfold call, Metadata.__call__. intros H.
  apply bind_Ok_inv in H as (a & Ha & H). exists a. split; [done|].
  injection H as H. unfold process_datasets. by rewrite H.
Qed.

Lemma set_calls_iff (a : setter_args) (dss : list dataset) :
  existsb is_set_call (process_datasets a dss).1.1 = true
  ↔ ¬ nothing_to_set a ∧ ∃ ds, ds ∈ dss ∧ ds_is_annex ds = true.
Proof.
  induction dss as [|ds dss IH].
  - split; [discriminate|]. intros [_ (ds & Hin & _)]. by apply elem_of_nil in Hin.
  - destruct (process_dataset_calls a ds)
      as [(Hds & Hc & He) | [(Hds & Hn & Hc & He)
          | (Hds & Hn & [(mod_paths & Hc & He) | [Hc He]])]];
      destruct (process_datasets_cons mp_success mp_file mp_item0 set_metadata
                  get_metadata impossible_results error_result ok_result
                  a ds dss) as [(He' & Hcons & _) | (He' & Hcons & _)];
      fold process_dataset in He', Hcons; fold process_datasets in Hcons;
      try congruence; rewrite Hcons, Hc; clear Hcons.
    + simpl. rewrite IH. split.
      * intros [Hn (ds' & Hin & Hds')].
        split; [done|]. exists ds'. split; [by apply list_elem_of_further | done].
      * intros [Hn (ds' & Hin & Hds')]. split; [done|].
        apply elem_of_cons in Hin as [-> | Hin]; [congruence | eauto].
    + simpl. rewrite IH. split; intros [Hn' _]; done.
    + simpl. split; [|done]. intros _. split; [done|].
      exists ds. split; [apply list_elem_of_here | done].
    + simpl. split; [|done]. intros _. split; [done|].
      exists ds. split; [apply list_elem_of_here | done].
Qed.

(** [set_metadata] is called in an invocation exactly when at least one
    of the four setter arguments was given (is truthy) and at least one of
    the datasets is an annex repository. *)
Theorem call_sets_iff_argument_given (dss : list dataset)
    (add init remove reset : pyval)
    (calls : list store_call) (rs : list res) (e : gen_end) :
  Metadata.__call__ mp_success mp_file mp_item0 set_metadata get_metadata
    impossible_results error_result ok_result dss add init remove reset
  = Ok (calls, rs, e) →
  existsb is_set_call calls = true
  ↔ (truthy add || truthy init || truthy remove || truthy reset)%bool = true
    ∧ ∃ ds, ds ∈ dss ∧ ds_is_annex ds = true.
Proof.
  intros H. apply call_Ok_inv in H as (a & Ha & -> & _).
  rewrite set_calls_iff, (nothing_to_set_falsy _ _ _ _ _ Ha).
  by rewrite not_false_iff_true.
Qed.

Lemma trace_shape (a : setter_args) (dss : list dataset) :
  (∀ paths a', SetMetadata paths a' ∈ (process_datasets a dss).1.1 →
     a' = a ∧ ∃ ds, ds ∈ dss ∧ ds_is_annex ds = true ∧ paths = ds_paths ds)
  ∧ length (filter (λ c, is_set_call c = false) (process_datasets a dss).1.1)
    ≤ length (filter (λ ds, ds_is_annex ds = true) dss)
  ∧ ((process_datasets a dss).2 = Exhausted →
     length (filter (λ c, is_set_call c = false) (process_datasets a dss).1.1)
     = length (filter (λ ds, ds_is_annex ds = true) dss))
  ∧ ((process_datasets a dss).2 = KeyErrorRaised →
     ¬ nothing_to_set a
     ∧ ∃ ds, ds ∈ dss ∧ ds_is_annex ds = true
             ∧ last (process_datasets a dss).1.1
               = Some (SetMetadata (ds_paths ds) a)).
Proof.
  induction dss as [|ds dss (IHs & IHle & IHeq & IHerr)].
  { split_and!; [|done..]. intros paths a' Hin. by apply elem_of_nil in Hin. }
  assert (Hfurther : ∀ P : dataset → Prop,
            (∃ ds', ds' ∈ dss ∧ P ds') → ∃ ds', ds' ∈ ds :: dss ∧ P ds').
  { intros P (ds' & Hin & HP). exists ds'.
    split; [by apply list_elem_of_further | done]. }
  assert (Hhere : ∀ P : dataset → Prop, P ds → ∃ ds', ds' ∈ ds :: dss ∧ P ds').
  { intros P HP. exists ds. split; [apply list_elem_of_here | done]. }
  destruct (process_dataset_calls a ds)
    as [(Hds & Hc & He) | [(Hds & Hn & Hc & He)
        | (Hds & Hn & [(mod_paths & Hc & He) | [Hc He]])]];
    destruct (process_datasets_cons mp_success mp_file mp_item0 set_metadata
                get_metadata impossible_results error_result ok_result
                a ds dss) as [(He' & Hcons & Hend) | (He' & Hcons & Hend)];
    fold process_dataset in He', Hcons;
    fold process_datasets in Hcons, Hend;
    try congruence; rewrite Hcons, Hend, Hc; clear Hcons Hend.
  - rewrite (filter_cons_False (λ d : dataset, ds_is_annex d = true))
      by congruence.
    rewrite app_nil_l. split_and!; [|done..|].
    + intros paths a' Hin. destruct (IHs _ _ Hin) as [-> H].
      split; [done|]. by apply Hfurther.
    + intros Herr. destruct (IHerr Herr) as [? H]. split; [done|].
      by apply Hfurther.
  - rewrite (filter_cons_True (λ d : dataset, ds_is_annex d = true)) by done.
    split_and!.
    + intros paths a' Hin. apply elem_of_cons in Hin as [Hin | Hin]; [done|].
      destruct (IHs _ _ Hin) as [-> H]. split; [done|]. by apply Hfurther.
    + cbn [app].
      rewrite (filter_cons_True (λ c, is_set_call c = false)) by done.
      simpl. lia.
    + intros Hex. cbn [app].
      rewrite (filter_cons_True (λ c, is_set_call c = false)) by done.
      simpl. by rewrite (IHeq Hex).
    + intros Herr. by destruct (IHerr Herr).
  - rewrite (filter_cons_True (λ d : dataset, ds_is_annex d = true)) by done.
    split_and!.
    + intros paths a' Hin. apply elem_of_cons in Hin as [[= -> ->] | Hin].
      { split; [done|]. by apply Hhere. }
      apply elem_of_cons in Hin as [Hin | Hin]; [done|].
      destruct (IHs _ _ Hin) as [-> H]. split; [done|]. by apply Hfurther.
    + cbn [app].
      rewrite (filter_cons_False (λ c, is_set_call c = false)) by done.
      rewrite (filter_cons_True (λ c, is_set_call c = false)) by done.
      simpl. lia.
    + intros Hex. cbn [app].
      rewrite (filter_cons_False (λ c, is_set_call c = false)) by done.
      rewrite (filter_cons_True (λ c, is_set_call c = false)) by done.
      simpl. by rewrite (IHeq Hex).
    + intros Herr. destruct (IHerr Herr) as [_ (ds' & Hin & Hds' & Hlast)].
      split; [done|]. exists ds'.
      split; [by apply list_elem_of_further|]. split; [done|].
      revert Hlast. destruct ((process_datasets a dss).1.1) as [|x l];
        [discriminate|].
      intros <-. reflexivity.
  - rewrite (filter_cons_True (λ d : dataset, ds_is_annex d = true)) by done.
    split_and!.
    + intros paths a' Hin. apply elem_of_cons in Hin as [[= -> ->] | Hin].
      { split; [done|]. by apply Hhere. }
      by apply elem_of_nil in Hin.
    + cbn [app].
      rewrite (filter_cons_False (λ c, is_set_call c = false)) by done.
      simpl. lia.
    + discriminate.
    + intros _. split; [done|]. by apply Hhere.
Qed.

(** In an invocation every [set_metadata] call is made on the paths of an
    annex dataset and carries the one set of shaped arguments; an annex
    dataset is queried at most once and the other datasets never, and when
    the generator is exhausted every annex dataset has been queried
    exactly once. The generator can only end by a [KeyError] when there is
    something to set, and then the last call on the repository is a set:
    the files it modified are not queried. *)
Theorem call_trace_shape (dss : list dataset) (add init remove reset : pyval)
    (a : setter_args) (calls : list store_call) (rs : list res)
    (e : gen_end) :
  shape_setter_args add init remove reset = Ok a →
  Metadata.__call__ mp_success mp_file mp_item0 set_metadata get_metadata
    impossible_results error_result ok_result dss add init remove reset
  = Ok (calls, rs, e) →
  (∀ paths a', SetMetadata paths a' ∈ calls →
     a' = a ∧ ∃ ds, ds ∈ dss ∧ ds_is_annex ds = true ∧ paths = ds_paths ds)
  ∧ length (filter (λ c, is_set_call c = false) calls)
    ≤ length (filter (λ ds, ds_is_annex ds = true) dss)
  ∧ (e = Exhausted →
     length (filter (λ c, is_set_call c = false) calls)
     = length (filter (λ ds, ds_is_annex ds = true) dss))
  ∧ (e = KeyErrorRaised →
     ¬ nothing_to_set a
     ∧ ∃ ds, ds ∈ dss ∧ ds_is_annex ds = true
             ∧ last calls = Some (SetMetadata (ds_paths ds) a)).
Proof.
  intros Ha H. apply call_Ok_inv in H as (a0 & Ha0 & -> & ->).
  assert (a0 = a) as -> by congruence. apply trace_shape.
Qed.

Lemma handle_responses_dicts (ds : dataset) (mps : list mp)
    (mod_paths : list string) :
  (∀ m, m ∈ mps → mp_item0 m = None) →
  (∀ m, m ∈ mps → mp_success m = true → is_Some (mp_file m)) →
  Metadata.handle_responses mp_success mp_file mp_item0 error_result
    ds mps mod_paths
  = if forallb mp_success mps
    then ([], Some (mod_paths ++ omap mp_file mps))
    else ([], None).
Proof.
  revert mod_paths. induction mps as [|m mps IH]; intros mod_paths H0 Hfile.
  - simpl. by rewrite app_nil_r.
  - simpl. destruct (mp_success m) eqn:Hs; simpl.
    + destruct (Hfile m (list_elem_of_here _ _) Hs) as [file Hf].
      rewrite Hf. rewrite IH.
      * by rewrite <- (assoc_L (++)).
      * intros m' Hin. apply H0. by apply list_elem_of_further.
      * intros m' Hin. apply Hfile. by apply list_elem_of_further.
    + by rewrite (H0 m (list_elem_of_here _ _)).
Qed.

(** After a set on an annex dataset whose answers are dicts as the
    repository gives them (no key [0], a ['file'] on success): when every
    answer reports success, the files of the answers are queried, in the
    order of the answers, and the records of the query are all that is
    yielded; as soon as one answer does not report success, the error
    record is not yielded: [mp[0]] raises [KeyError], nothing is yielded
    for the dataset, nothing is queried and the generator ends. *)
Theorem process_dataset_after_set (a : setter_args) (ds : dataset) :
  ds_is_annex ds = true → ¬ nothing_to_set a →
  (∀ m, m ∈ set_metadata (ds_paths ds) a → mp_item0 m = None) →
  (∀ m, m ∈ set_metadata (ds_paths ds) a → mp_success m = true →
        is_Some (mp_file m)) →
  Metadata.process_dataset mp_success mp_file mp_item0 set_metadata
    get_metadata impossible_results error_result ok_result a ds
  = if forallb mp_success (set_metadata (ds_paths ds) a)
    then
      let files := omap mp_file (set_metadata (ds_paths ds) a) in
      ([SetMetadata (ds_paths ds) a; GetMetadata files],
       map (λ fm, ok_result ds fm.1 fm.2) (get_metadata files), Exhausted)
    else ([SetMetadata (ds_paths ds) a], [], KeyErrorRaised).
Proof.
  intros Hds Hn H0 Hfile. rewrite <- guard_false in Hn.
  apply not_false_is_true in Hn.
  unfold Metadata.process_dataset. rewrite Hds, Hn. simpl.
  rewrite (handle_responses_dicts _ _ _ H0 Hfile).
  by destruct (forallb mp_success _).
Qed.
End CallTrace.

Lemma call_sets_iff_argument_given_witness :
  existsb is_set_call
    [SetMetadata ["f"] {| sa_reset := ∅; sa_add := ∅; sa_init := ∅;
                          sa_remove := {[ "tag" := PyList [PyStr "old"] ]};
                          sa_purge := [] |};
     GetMetadata ["f"]] = true
  ↔ (truthy PyNone || truthy PyNone || truthy (PyList [PyStr "old"])
     || truthy PyNone)%bool = true
    ∧ ∃ ds, ds ∈ [Dataset "/ds" true ["f"]] ∧ ds_is_annex ds = true.
Proof.
  refine (call_sets_iff_argument_given (λ _ : unit, true) (λ _, Some "f")
            (λ _, None) (λ _ _, [()]) (λ _, [("f", ())]) (λ _, [])
            (λ _ _, ()) (λ _ _ _, ())
            [Dataset "/ds" true ["f"]] PyNone PyNone (PyList [PyStr "old"]) PyNone
            [SetMetadata ["f"] {| sa_reset := ∅; sa_add := ∅; sa_init := ∅;
                                  sa_remove := {[ "tag" := PyList [PyStr "old"] ]};
                                  sa_purge := [] |};
             GetMetadata ["f"]] [()] Exhausted _).
  vm_compute. reflexivity.
Defined.

Lemma call_trace_shape_witness :
  let a := {| sa_reset := ∅; sa_add := ∅; sa_init := ∅;
              sa_remove := {[ "tag" := PyList [PyStr "old"] ]};
              sa_purge := [] |} in
  let dss := [Dataset "/a" true ["f"]; Dataset "/b" false ["x"];
              Dataset "/c" true ["g"; "h"]; Dataset "/d" true ["i"]] in
  let calls := [SetMetadata ["f"] a; GetMetadata ["f"];
                SetMetadata ["g"; "h"] a] in
  (∀ paths a', SetMetadata paths a' ∈ calls →
     a' = a ∧ ∃ ds, ds ∈ dss ∧ ds_is_annex ds = true ∧ paths = ds_paths ds)
  ∧ length (filter (λ c, is_set_call c = false) calls)
    ≤ length (filter (λ ds, ds_is_annex ds = true) dss)
  ∧ (KeyErrorRaised = Exhausted →
     length (filter (λ c, is_set_call c = false) calls)
     = length (filter (λ ds, ds_is_annex ds = true) dss))
  ∧ (KeyErrorRaised = KeyErrorRaised →
     ¬ nothing_to_set a
     ∧ ∃ ds, ds ∈ dss ∧ ds_is_annex ds = true
             ∧ last calls = Some (SetMetadata (ds_paths ds) a)).
Proof.
  intros a dss calls.
  refine (call_trace_shape
            (λ ok : bool, ok) (λ _, Some "f") (λ _, None)
            (λ paths _, match paths with [_] => [true] | _ => [true; false] end)
            (λ _, [("f", ())]) (λ _, []) (λ _ _, ()) (λ _ _ _, ())
            dss PyNone PyNone (PyList [PyStr "old"]) PyNone
            a calls [()] KeyErrorRaised _ _).
  - vm_compute. reflexivity.
  - vm_compute. reflexivity.
Defined.

Lemma process_dataset_after_set_witness :
  let a := {| sa_reset := ∅; sa_add := ∅; sa_init := ∅; sa_remove := ∅;
              sa_purge := [PyStr "color"] |} in
  Metadata.process_dataset (λ ok : bool, ok) (λ _, Some "f") (λ _, None)
    (λ _ _, [true; false]) (λ _, [("f", ())]) (λ _, []) (λ _ _, "error")
    (λ _ _ _, "ok") a (Dataset "/ds" true ["f"; "g"])
  = ([SetMetadata ["f"; "g"] a], [], KeyErrorRaised).
Proof.
  intros a.
  refine (process_dataset_after_set (λ ok : bool, ok) (λ _, Some "f")
            (λ _, None) (λ _ _, [true; false]) (λ _, [("f", ())]) (λ _, [])
            (λ _ _, "error") (λ _ _ _, "ok") a
            (Dataset "/ds" true ["f"; "g"]) eq_refl _ _ _).
  - intros (_ & _ & _ & _ & Hpurge). discriminate Hpurge.
  - done.
  - intros m _ _. by eexists.
Defined.

(** ** The loop over the annotated paths *)

Lemma ap_mark_not_dataset (is_valid_repo : pyval → bool)
    (ap : gmap string pyval) :
  ap_is_dataset ap = false → ap_mark is_valid_repo ap = ap.
Proof. intros H. unfold ap_mark. rewrite H. by destruct (ap !! "path"). Qed.

(** When every dataset that is to be processed carries its path, the
    loop is a partition: the paths that come with a status are yielded
    untouched and in order, absent datasets are dropped, and all the others
    are kept for processing, in order, a dataset with a valid repository
    marked with [process_content] and nothing else changed. *)
Theorem collect_to_process_partition (is_valid_repo : pyval → bool)
    (aps : list (gmap string pyval)) :
  (∀ ap, ap ∈ aps → ap_done ap = false → ap_is_dataset ap = true →
         ap_absent_dataset ap = false → is_Some (ap !! "path")) →
  collect_to_process is_valid_repo aps
  = (filter (λ ap, ap_done ap = true) aps,
     Some (ap_mark is_valid_repo
             <$> filter (λ ap, ap_done ap = false ∧ ap_absent_dataset ap = false)
                        aps)).
Proof.
  induction aps as [|ap aps IH]; intros Hpath; [reflexivity|].
  assert (IH' := IH (λ ap' Hin, Hpath ap' (list_elem_of_further _ _ _ Hin))).
  clear IH. specialize (Hpath ap (list_elem_of_here _ _)).
  cbn [collect_to_process]. rewrite IH'.
  fold (ap_done ap). fold (ap_is_dataset ap).
  destruct (ap_done ap) eqn:Hdone.
  { rewrite filter_cons_True by done.
    rewrite filter_cons_False by (intros [? _]; congruence). done. }
  rewrite (filter_cons_False (λ ap, ap_done ap = true)) by congruence.
  destruct (ap_is_dataset ap) eqn:Hds.
  - destruct (py_eq_str (dict_get ap "state" PyNone) "absent") eqn:Habs.
    + rewrite filter_cons_False; [done|].
      unfold ap_absent_dataset. rewrite Hds, Habs. by intros [_ ?].
    + rewrite filter_cons_True
        by (unfold ap_absent_dataset; by rewrite Hds, Habs).
      destruct Hpath as [path Hp];
        [done.. | unfold ap_absent_dataset; by rewrite Hds, Habs |].
      rewrite Hp.
      rewrite fmap_cons. unfold ap_mark at 2. by rewrite Hp, Hds.
  - rewrite filter_cons_True
      by (unfold ap_absent_dataset; by rewrite Hds).
    rewrite fmap_cons. by rewrite ap_mark_not_dataset.
Qed.

Lemma collect_to_process_partition_witness :
  collect_to_process (λ _, true)
    [ {[ "status" := PyStr "error"; "path" := PyStr "/x" ]};
      {[ "type" := PyStr "dataset"; "state" := PyStr "absent" ]};
      {[ "type" := PyStr "dataset"; "path" := PyStr "/ds" ]};
      {[ "type" := PyStr "file"; "path" := PyStr "/ds/f" ]} ]
  = ([ {[ "status" := PyStr "error"; "path" := PyStr "/x" ]} ],
     Some [ {[ "process_content" := PyBool true; "type" := PyStr "dataset";
               "path" := PyStr "/ds" ]};
            {[ "type" := PyStr "file"; "path" := PyStr "/ds/f" ]} ]).
Proof.
  etrans; [apply collect_to_process_partition | vm_compute; reflexivity].
  intros ap Hin Hdone Hds Habs.
  repeat (apply elem_of_cons in Hin as [-> | Hin]);
    try (vm_compute in Hds; discriminate Hds);
    try (vm_compute in Habs; discriminate Habs).
  - exists (PyStr "/ds"). vm_compute. reflexivity.
  - by apply elem_of_nil in Hin.
Defined.

(** The loop ends in a [KeyError] exactly when a dataset without a status
    that is not absent has no ["path"]; a missing path is harmless on
    every other annotated path. *)
Theorem collect_to_process_key_error (is_valid_repo : pyval → bool)
    (aps : list (gmap string pyval)) :
  (collect_to_process is_valid_repo aps).2 = None
  ↔ ∃ ap, ap ∈ aps ∧ ap_done ap = false ∧ ap_is_dataset ap = true
          ∧ ap_absent_dataset ap = false ∧ ap !! "path" = None.
Proof.
  induction aps as [|ap aps IH].
  - split; [discriminate|]. intros (ap & Hin & _). by apply elem_of_nil in Hin.
  - assert (Hrest : (∃ ap', ap' ∈ aps ∧ ap_done ap' = false
                       ∧ ap_is_dataset ap' = true
                       ∧ ap_absent_dataset ap' = false ∧ ap' !! "path" = None)
                    → ∃ ap', ap' ∈ ap :: aps ∧ ap_done ap' = false
                       ∧ ap_is_dataset ap' = true
                       ∧ ap_absent_dataset ap' = false ∧ ap' !! "path" = None).
    { intros (ap' & Hin & H). exists ap'. split; [by apply list_elem_of_further | done]. }
    cbn [collect_to_process]. fold (ap_done ap). fold (ap_is_dataset ap).
    destruct (collect_to_process is_valid_repo aps) as [ys tp] eqn:E.
    simpl in IH.
    assert (Hinv : ∀ P : Prop,
      (ap_done ap = false → ap_is_dataset ap = true →
       ap_absent_dataset ap = false → ap !! "path" = None → P) →
      ((tp = None → P) →
       (∃ ap', ap' ∈ ap :: aps ∧ ap_done ap' = false
               ∧ ap_is_dataset ap' = true
               ∧ ap_absent_dataset ap' = false ∧ ap' !! "path" = None) → P)).
    { intros P Hhere Htl (ap' & Hin & H1 & H2 & H3 & H4).
      apply elem_of_cons in Hin as [-> | Hin]; [by apply Hhere|].
      apply Htl, IH. eauto 10. }
    destruct (ap_done ap) eqn:Hdone.
    { simpl. split; [intros H; apply Hrest, IH, H|].
      apply Hinv; [discriminate | done]. }
    destruct (ap_is_dataset ap) eqn:Hds.
    + destruct (py_eq_str (dict_get ap "state" PyNone) "absent") eqn:Habs.
      * simpl. split; [intros H; apply Hrest, IH, H|].
        apply Hinv; [|done]. unfold ap_absent_dataset.
        rewrite Hds, Habs. discriminate.
      * destruct (ap !! "path") as [path|] eqn:Hp; simpl.
        -- split.
           ++ intros H. apply Hrest, IH. by destruct tp.
           ++ apply Hinv; [intros; congruence|]. by intros ->.
        -- split; [|done]. intros _. exists ap.
           split; [apply list_elem_of_here|]. unfold ap_absent_dataset.
           by rewrite Hds, Habs.
    + simpl. split.
      * intros H. apply Hrest, IH. by destruct tp.
      * apply Hinv; [intros; congruence|]. by intros ->.
Qed.

(** ** The renderer *)

Lemma str_le_compare (s t : string) : str_le s t ↔ String.compare s t ≠ Gt.
Proof.
  unfold str_le, String.leb. destruct (String.compare s t); split; done.
Qed.

Lemma string_compare_trans (s1 s2 s3 : string) :
  String.compare s1 s2 ≠ Gt → String.compare s2 s3 ≠ Gt →
  String.compare s1 s3 ≠ Gt.
Proof.
  revert s2 s3. induction s1 as [|a s1 IH]; intros [|b s2] [|c s3]; simpl;
    try congruence.
  unfold Ascii.compare.
  destruct (N.compare_spec (N_of_ascii a) (N_of_ascii b)) as [Eab|Lab|Gab];
    [| |congruence].
  - rewrite Eab.
    destruct (N.compare (N_of_ascii b) (N_of_ascii c)); [apply IH | done | done].
  - intros _.
    destruct (N.compare_spec (N_of_ascii b) (N_of_ascii c)) as [Ebc|Lbc|Gbc];
      [| |congruence].
    + rewrite <- Ebc, (proj2 (N.compare_lt_iff _ _) Lab). done.
    + rewrite (proj2 (N.compare_lt_iff _ _) (N.lt_trans _ _ _ Lab Lbc)). done.
Qed.

#[global] Instance str_le_trans : Transitive str_le.
Proof.
  intros s1 s2 s3. rewrite !str_le_compare. apply string_compare_trans.
Qed.

#[global] Instance str_le_total : Total str_le.
Proof. intros s t. apply String.leb_total. Qed.

#[global] Instance str_le_antisymm : AntiSymm (=) str_le.
Proof. intros s t. apply String.leb_antisym. Qed.

Lemma StronglySorted_filter {A} (R : relation A) (P : A → Prop)
    `{∀ x, Decision (P x)} (l : list A) :
  StronglySorted R l → StronglySorted R (filter P l).
Proof.
  induction 1 as [|x l Hl IH Hx]; [constructor|].
  destruct (decide (P x)).
  - rewrite filter_cons_True by done. constructor; [done|].
    apply Forall_forall. intros y Hy. apply list_elem_of_filter in Hy as [_ Hy].
    rewrite Forall_forall in Hx. by apply Hx.
  - by rewrite filter_cons_False.
Qed.

Lemma listed_keys_spec (meta : list (string * list string)) :
  StronglySorted str_le (listed_keys meta)
  ∧ listed_keys meta ≡ₚ non_tag_keys meta
  ∧ ∀ k, k ∈ listed_keys meta ↔ k ∈ dict_keys meta ∧ k ≠ "tag".
Proof.
  unfold listed_keys, non_tag_keys, sorted. split_and!.
  - apply StronglySorted_filter, StronglySorted_merge_sort; apply _.
  - by rewrite merge_sort_Permutation.
  - intros k. rewrite list_elem_of_filter, merge_sort_Permutation. tauto.
Qed.

(** A message is produced exactly for the results with status ["ok"] and
    action ["metadata"]. It is the path, relative to [refds] when [refds]
    is truthy and as it is otherwise, and a colon; then, when the metadata
    has a key other than ["tag"], a space and these keys, each once, in
    increasing order, separated by commas, with no value shown; then the
    tags, when there is a ["tag"] entry, in brackets after a space. *)
Theorem custom_result_renderer_message (relpath : string → string → string)
    (res : result_record) :
  NoDup (dict_keys (default [] (res_metadata res))) →
  (custom_result_renderer relpath res = None
   ↔ res_status res ≠ "ok" ∨ res_action res ≠ Some "metadata")
  ∧ ∀ msg, custom_result_renderer relpath res = Some msg →
      ∃ path keys,
        msg = path +:+ ":" +:+ (if decide (keys = []) then "" else " ")
              +:+ String.concat "," keys
              +:+ match items_get "tag" (default [] (res_metadata res)) with
                  | None => ""
                  | Some tags => " [" +:+ String.concat "," tags +:+ "]"
                  end
        ∧ (∀ refds, res_refds res = Some refds → refds ≠ "" →
                    path = relpath (res_path res) refds)
        ∧ (res_refds res = None ∨ res_refds res = Some "" →
           path = res_path res)
        ∧ StronglySorted str_le keys ∧ NoDup keys
        ∧ ∀ k, k ∈ keys
               ↔ k ∈ dict_keys (default [] (res_metadata res)) ∧ k ≠ "tag".
Proof.
  intros Hnodup. unfold custom_result_renderer. split.
  - destruct (String.eqb_spec (res_status res) "ok") as [Hs|Hs]; simpl.
    + destruct (bool_decide_reflect (res_action res = Some "metadata"))
        as [Ha|Ha]; simpl.
      * split; [discriminate | intros [?|?]; done].
      * split; [by right | done].
    + split; [by left | done].
  - intros msg H. set (meta := default [] (res_metadata res)) in *.
    destruct (negb _ || negb _)%bool; [discriminate|]. injection H as <-.
    destruct (listed_keys_spec meta) as (Hsorted & Hperm & Hmem).
    exists (rendered_path relpath res), (listed_keys meta).
    split_and!; [| | |done| |done].
    + rewrite <- (Permutation_length Hperm).
      destruct (listed_keys meta); reflexivity.
    + intros refds Hr Hne. unfold rendered_path. rewrite Hr.
      by destruct (String.eqb_spec refds "").
    + unfold rendered_path. by intros [-> | ->].
    + rewrite Hperm. by apply NoDup_filter.
Qed.

Lemma custom_result_renderer_message_witness :
  ∃ path keys,
    "f: color,mood [a,b]"
    = path +:+ ":" +:+ (if decide (keys = []) then "" else " ")
      +:+ String.concat "," keys
      +:+ match items_get "tag" [("mood", ["happy"]); ("tag", ["a"; "b"]);
                                 ("color", ["red"])] with
          | None => ""
          | Some tags => " [" +:+ String.concat "," tags +:+ "]"
          end
    ∧ (∀ refds, Some "/ds" = Some refds → refds ≠ "" → path = "f")
    ∧ (Some "/ds" = None ∨ Some "/ds" = Some "" → path = "/ds/f")
    ∧ StronglySorted str_le keys ∧ NoDup keys
    ∧ ∀ k, k ∈ keys ↔ k ∈ ["mood"; "tag"; "color"] ∧ k ≠ "tag".
Proof.
  refine (proj2 (custom_result_renderer_message (λ _ _, "f")
            (ResultRecord "ok" (Some "metadata") "/ds/f" (Some "/ds")
               (Some [("mood", ["happy"]); ("tag", ["a"; "b"]);
                      ("color", ["red"])])) _)
          "f: color,mood [a,b]" _).
  - apply (bool_decide_unpack _). vm_compute. reflexivity.
  - vm_compute. reflexivity.
Defined.

(** The message shows the metadata only through the set of its keys and
    its ["tag"] entry: two results whose metadata have the same keys, in
    whatever order the dicts give them and with whatever values under the
    keys other than ["tag"], are rendered alike. *)
Theorem custom_result_renderer_keys_only (relpath : string → string → string)
    (status : string) (action : option string) (path : string)
    (refds : option string) (meta1 meta2 : list (string * list string)) :
  dict_keys meta1 ≡ₚ dict_keys meta2 →
  items_get "tag" meta1 = items_get "tag" meta2 →
  custom_result_renderer relpath
    (ResultRecord status action path refds (Some meta1))
  = custom_result_renderer relpath
      (ResultRecord status action path refds (Some meta2)).
Proof.
  intros Hkeys Htag.
  destruct (listed_keys_spec meta1) as (Hs1 & Hp1 & _).
  destruct (listed_keys_spec meta2) as (Hs2 & Hp2 & _).
  assert (Hnon : non_tag_keys meta1 ≡ₚ non_tag_keys meta2).
  { unfold non_tag_keys. by rewrite Hkeys. }
  assert (Hlisted : listed_keys meta1 = listed_keys meta2).
  { apply (StronglySorted_unique str_le); [done..|]. by rewrite Hp1, Hp2. }
  unfold custom_result_renderer, rendered_path. simpl.
  by rewrite Hlisted, (Permutation_length Hnon), Htag.
Qed.

Lemma custom_result_renderer_keys_only_witness :
  custom_result_renderer (λ p _, p)
    (ResultRecord "ok" (Some "metadata") "f" None
       (Some [("mood", ["happy"]); ("color", ["red"]); ("tag", ["a"; "b"])]))
  = custom_result_renderer (λ p _, p)
      (ResultRecord "ok" (Some "metadata") "f" None
         (Some [("color", []); ("tag", ["a"; "b"]); ("mood", ["sad"; "so"])])).
Proof.
  apply custom_result_renderer_keys_only.
  - simpl. rewrite (Permutation_swap "color" "mood"). apply perm_skip.
    apply Permutation_swap.
  - reflexivity.
Defined.

Example custom_result_renderer_example :
  custom_result_renderer (λ p _, p)
    (ResultRecord "ok" (Some "metadata") "f" None
       (Some [("mood", ["happy"]); ("color", ["red"]); ("tag", ["a"; "b"])]))
  = Some "f: color,mood [a,b]".
Proof. vm_compute. reflexivity. Qed.

Example custom_result_renderer_tags_only :
  custom_result_renderer (λ p _, p)
    (ResultRecord "ok" (Some "metadata") "f" None (Some [("tag", ["a"])]))
  = Some "f: [a]".
Proof. vm_compute. reflexivity. Qed.

(** ** Dict-form arguments as a whole *)

Lemma parse_body_dict_item (k v : pyval) (st : parse_state) :
  parse_body true (PyTuple [k; v]) st
  = if truthy v then key ← _get_key k; Ok (st.1, <[key := v]> st.2)
    else Ok (st.1 ++ [k], st.2).
Proof. destruct st as [tags mapping]. reflexivity. Qed.

(** The tags of a dict-form argument are, in the order of iteration, the
    keys whose value is falsy, as they were given. *)
Theorem parse_mapping_tags (items : list (pyval * pyval)) (tags : list pyval)
    (mapping : gmap string pyval) :
  _parse_argspec (PyDict items) = Ok (tags, mapping) →
  tags = (filter (λ kv, truthy kv.2 = false) items).*1.
Proof.
  rewrite parse_dict_loop. simpl iter_args. revert tags mapping.
  induction items as [|[k v] items IH] using rev_ind; intros tags mapping H.
  - by injection H as <- <-.
  - rewrite map_app in H. simpl map in H.
    apply for_each_snoc_inv in H as ([t1 m1] & H1 & H2).
    rewrite parse_body_dict_item in H2. simpl in H2.
    rewrite filter_app, fmap_app, <- (IH _ _ H1).
    destruct (truthy v) eqn:Hv.
    + rewrite filter_cons_False by (simpl; congruence).
      apply bind_Ok_inv in H2 as (key & _ & [= <- _]).
      by rewrite filter_nil, app_nil_r.
    + rewrite filter_cons_True by done. by injection H2 as <- _.
Qed.

Lemma parse_mapping_tags_witness :
  [PyStr "Color"; PyInt 7]
  = (filter (λ kv : pyval * pyval, truthy kv.2 = false)
       [(PyStr "Color", PyStr ""); (PyStr "mood", PyStr "happy");
        (PyInt 7, PyList [])]).*1.
Proof.
  apply (parse_mapping_tags _ _ {[ "mood" := PyStr "happy" ]}).
  vm_compute. reflexivity.
Defined.

(** A dict-form argument normalises exactly when the key of every item
    with a truthy value passes [_get_key]; the keys of the items with a
    falsy value are never looked at. *)
Theorem parse_mapping_succeeds (items : list (pyval * pyval)) :
  (∃ st, _parse_argspec (PyDict items) = Ok st)
  ↔ ∀ k v, (k, v) ∈ items → truthy v = true → ∃ key, _get_key k = Ok key.
Proof.
  rewrite parse_dict_loop. simpl iter_args.
  generalize (([], ∅) : parse_state).
  induction items as [|[k v] items IH]; intros st.
  - split; [|by eexists]. intros _ k v Hin. by apply elem_of_nil in Hin.
  - simpl map. cbn [for_each]. rewrite parse_body_dict_item. split.
    + intros [st' H] k' v' Hin Hv'.
      apply bind_Ok_inv in H as (st1 & H1 & H2).
      apply elem_of_cons in Hin as [[= -> ->] | Hin].
      * rewrite Hv' in H1. apply bind_Ok_inv in H1 as (key & Hkey & _). eauto.
      * eapply (IH st1); eauto.
    + intros Hall.
      assert (Hrest : ∀ st1, ∃ st',
                for_each (parse_body true)
                  (map (λ kv, PyTuple [kv.1; kv.2]) items) st1 = Ok st').
      { intros st1. apply IH. intros k' v' Hin.
        apply Hall. by apply list_elem_of_further. }
      destruct (truthy v) eqn:Hv.
      * destruct (Hall k v (list_elem_of_here _ _) Hv) as [key Hkey].
        rewrite Hkey. rewrite !bind_Ok. apply Hrest.
      * rewrite bind_Ok. apply Hrest.
Qed.

Lemma parse_mapping_succeeds_witness :
  ∃ st, _parse_argspec (PyDict [(PyStr "not a key", PyNone);
                                (PyStr "Mood", PyStr "happy")]) = Ok st.
Proof.
  apply parse_mapping_succeeds. intros k v Hin Hv.
  repeat (apply elem_of_cons in Hin as [[= -> ->] | Hin]);
    [discriminate Hv | by eexists |].
  by apply elem_of_nil in Hin.
Defined.

Lemma parse_sequence_succeeds_witness :
  ∃ st, _parse_argspec (PyList [PyList [PyStr "urgent"]; PyInt 3;
                                PyList [PyStr "Color"; PyStr "red"]]) = Ok st.
Proof. apply parse_sequence_succeeds. reflexivity. Defined.

(** ** The merge block: when it raises *)



(** ** Witnesses of the equivalences above *)

Lemma collect_to_process_key_error_witness :
  ∃ ap, ap ∈ [ ({[ "type" := PyStr "dataset" ]} : gmap string pyval) ]
        ∧ ap_done ap = false ∧ ap_is_dataset ap = true
        ∧ ap_absent_dataset ap = false ∧ ap !! "path" = None.
Proof.
  apply (collect_to_process_key_error (λ _, true)). reflexivity.
Defined.

